(** * stdexec: the system context (exec/system_context.hpp) and the racing
      combinator (exec/when_any.hpp)

    A shallow embedding of [src/include/exec/system_context.hpp]: the objects
    the header keeps in memory are records in an explicit store, the calls it
    makes into code it does not own (the receiver it was connected to, the
    scheduler interface of the engine, the function object of [bulk], a
    foreign input sender) are events appended to a trace, and every function
    of the header is a computation in a small state-and-failure monad over
    that store. *)

From Stdlib Require Import ZArith List Lia Bool.
From stdpp Require Import base option numbers gmap list.

Local Open Scope Z_scope.

Module SystemContext.

(** ** Data model *)

(** [std::exception_ptr]: one pointer-sized handle to the exception object.
    The header obtains one by reading the bits of a void pointer as an
    exception_ptr (a reinterpret_cast of the address of [__exception]). *)
Record exception_ptr := mk_exception_ptr { __exception_object : Z }.

Definition nullptr : Z := 0.

(** The values a [set_value] carries ([__As...]). *)
Definition values := list Z.

(** The three completion signals of a receiver. *)
Inductive completion :=
| set_value_c (vs : values)
| set_stopped_c
| set_error_c (e : exception_ptr).

(** The two static member functions the header hands to the engine as
    completion callbacks (pointer to function of data, completion type and
    exception). *)
Inductive callback :=
| op_cb_ptr      (* &system_sender::__op<S, R>::__cb *)
| bulk_cb_ptr.   (* &__bulk_intermediate_receiver<...>::__cb *)

(** The captureless lambda of the intermediate receiver's [set_value],
    handed to the engine as a pointer to function of state and index. *)
Inductive item_function := __type_erased_fn_ptr.

(** Modelled from the spec: the engine's side of the completion encoding,
    which lives in the absent [__detail/__system_context_default_impl.hpp].
    Section 4.2: completions cross the boundary as a small integer
    discriminant (0 = value, 1 = cancelled, 2 = error-with-payload) plus an
    opaque payload pointer; section 6: the error payload points to the error
    object, a value payload is not observed by the type-erased path. *)
Inductive boundary_completion :=
| bc_value
| bc_cancelled
| bc_error (e : exception_ptr).

Definition encode (c : boundary_completion) : Z * Z :=
  match c with
  | bc_value => (0, nullptr)
  | bc_cancelled => (1, nullptr)
  | bc_error e => (2, __exception_object e)
  end.

(** The channel and payload a boundary completion stands for. *)
Definition channel_of (c : boundary_completion) : completion :=
  match c with
  | bc_value => set_value_c []
  | bc_cancelled => set_stopped_c
  | bc_error e => set_error_c e
  end.

(** What a function object leaves in the arguments it is called with. The
    item function calls [__fun_(__idx, __args...)] with the elements of the
    stored tuple as lvalues, so a function object that takes its arguments by
    reference can write them: [call_writes f idx args] are the elements after
    the call of [f] at [idx] on the elements [args]. *)
Class FunctionObject (Fn : Type) := call_writes : Fn → Z → values → values.

Section Model.

(** [R]: the type of the receiver the user connects ([__R]); [Fn]: the type
    of the function object of [bulk] ([__Fn]); [P]: any input sender type of
    [bulk] other than [system_sender]. *)
Context {R Fn P : Type} `{!FunctionObject Fn}.

(** The offset of the member [__previous_operation_state_] in [__bulk_op]
    (its first member, [__state_], is at offset 0): fixed by the ABI. *)
Variable previous_operation_state_offset : Z.

(** [__bulk_intermediate_receiver]: a reference to the bulk state. *)
Record __bulk_intermediate_receiver := mk_intermediate { __state_ : Z }.

(** The receivers a [system_sender] is connected to: the user's, or the
    intermediate receiver of a bulk operation. *)
Inductive receiver :=
| user_receiver (r : R)
| bulk_receiver (i : __bulk_intermediate_receiver).

(** [system_sender], member [__scheduler_]. *)
Record system_sender := mk_system_sender { ss_scheduler_ : Z }.

(** The input sender of a bulk sender ([__Previous]). *)
Inductive previous_sender :=
| previous_system (s : system_sender)
| previous_foreign (p : P).

(** [system_bulk_sender<Previous, Size, Fn>], members [__scheduler_],
    [__previous_], [__size_] and [__fun_]. *)
Record system_bulk_sender := mk_system_bulk_sender {
  sbs_scheduler_ : Z;
  sbs_previous_ : previous_sender;
  sbs_size_ : Z;
  sbs_fun_ : Fn
}.

(** [system_sender::__op<S, R>], members [__recv_] and [__scheduler_]. (The
    members of the header's classes share names; the projections here carry
    a prefix for the class.) *)
Record __op := mk_op { op_recv_ : receiver; op_scheduler_ : Z }.

(** [__bulk_state<Previous, Size, Fn, R>], members [__snd_], [__recv_] and
    [__arguments_data_]. *)
Record __bulk_state := mk_bulk_state {
  bst_snd_ : system_bulk_sender;
  bst_recv_ : R;
  bst_arguments_data_ : Z
}.

(** Calls that leave the header. *)
Inductive event :=
| ev_schedule (sched : Z) (cb : callback) (data : Z)
    (* sched->__schedule(sched, cb, data) *)
| ev_bulk_schedule (sched : Z) (cb : callback) (fn : item_function) (data size : Z)
    (* sched->__bulk_schedule(sched, cb, fn, data, size) *)
| ev_receiver (r : R) (c : completion)
    (* stdexec::set_value / set_stopped / set_error on the user's receiver *)
| ev_fun (f : Fn) (idx : Z) (args : values)
    (* __fun_(idx, args...) *)
| ev_connect_foreign (p : P) (i : __bulk_intermediate_receiver) (this : Z)
    (* stdexec::connect(p, i), the result constructed at this *)
| ev_start_foreign (this : Z).
    (* stdexec::start on a foreign operation state *)

(** The store: live [__op] objects and live [__bulk_state] objects by
    address, live [new char[]] blocks with the tuple stored in them, the
    allocator's next block, and the calls made so far, oldest first. *)
Record world := mk_world {
  ops : gmap Z __op;
  bulk_states : gmap Z __bulk_state;
  blocks : gmap Z values;
  next_block : positive;
  trace : list event
}.

(** ** The monad: state passing, [None] for undefined behaviour (a read
    through a dangling pointer, a double [delete[]]). *)
Definition M (A : Type) : Type := world → option (A * world).

Definition ret {A} (a : A) : M A := λ w, Some (a, w).

Definition bind {A B} (m : M A) (k : A → M B) : M B :=
  λ w, match m w with
       | Some (a, w') => k a w'
       | None => None
       end.

(** The world with one more call on its trace. *)
Definition record_event (e : event) (w : world) : world :=
  mk_world (ops w) (bulk_states w) (blocks w) (next_block w) (trace w ++ [e]).

Definition emit (e : event) : M unit := λ w, Some (tt, record_event e w).

Definition load_op (a : Z) : M __op :=
  λ w, match ops w !! a with Some o => Some (o, w) | None => None end.

Definition store_op (a : Z) (o : __op) : M unit :=
  λ w, Some (tt, mk_world (<[a := o]> (ops w)) (bulk_states w) (blocks w)
                          (next_block w) (trace w)).

Definition load_state (a : Z) : M __bulk_state :=
  λ w, match bulk_states w !! a with Some s => Some (s, w) | None => None end.

Definition store_state (a : Z) (s : __bulk_state) : M unit :=
  λ w, Some (tt, mk_world (ops w) (<[a := s]> (bulk_states w)) (blocks w)
                          (next_block w) (trace w)).

Definition load_block (p : Z) : M values :=
  λ w, match blocks w !! p with Some vs => Some (vs, w) | None => None end.

(** The elements of the tuple in the block at [p] are written. *)
Definition store_block (p : Z) (vs : values) : M unit :=
  λ w, Some (tt, mk_world (ops w) (bulk_states w) (<[p := vs]> (blocks w))
                          (next_block w) (trace w)).

(** [new char[sizeof(std::tuple<As...>)]] followed by the placement-new of
    [std::tuple<As...>{as...}] into it: a fresh, non-null block holding the
    tuple. The block's entry is the values seen through the tuple's
    elements: for an rvalue argument the element is a copy, for an lvalue
    argument it is a reference and the entry is the value of the object it
    refers to. What the elements own is not in the model. *)
Definition new_tuple (vs : values) : M Z :=
  λ w, let p := Z.pos (next_block w) in
       Some (p, mk_world (ops w) (bulk_states w) (<[p := vs]> (blocks w))
                         (Pos.succ (next_block w)) (trace w)).

(** [delete[] p]: nothing for the null pointer, releases a live block,
    undefined otherwise. The pointer is a [char*]: the char array is
    released and no destructor is run for a tuple constructed in it. *)
Definition delete_array (p : Z) : M unit :=
  λ w, if p =? nullptr then Some (tt, w)
       else match blocks w !! p with
            | Some _ => Some (tt, mk_world (ops w) (bulk_states w)
                                           (delete p (blocks w))
                                           (next_block w) (trace w))
            | None => None
            end.

#[export] Instance M_ret : MRet M := @ret.
#[export] Instance M_bind : MBind M := λ A B k m, bind m k.

(** ** [__bulk_intermediate_receiver] (lines 202-269) *)

(** [tag_invoke(set_value_t, __bulk_intermediate_receiver&&, __As&&...)]. *)
Definition bulk_set_value (self : __bulk_intermediate_receiver) (vs : values)
  : M unit :=
  st ← load_state (__state_ self);
  p ← new_tuple vs;
  store_state (__state_ self)
              (mk_bulk_state (bst_snd_ st) (bst_recv_ st) p);;
  emit (ev_bulk_schedule (sbs_scheduler_ (bst_snd_ st)) bulk_cb_ptr
                         __type_erased_fn_ptr (__state_ self)
                         (sbs_size_ (bst_snd_ st))).

(** [tag_invoke(set_stopped_t, __bulk_intermediate_receiver&&)]. *)
Definition bulk_set_stopped (self : __bulk_intermediate_receiver) : M unit :=
  st ← load_state (__state_ self);
  delete_array (bst_arguments_data_ st);;
  emit (ev_receiver (bst_recv_ st) set_stopped_c).

(** [tag_invoke(set_error_t, __bulk_intermediate_receiver&&, exception_ptr)]. *)
Definition bulk_set_error (self : __bulk_intermediate_receiver)
  (ptr : exception_ptr) : M unit :=
  st ← load_state (__state_ self);
  delete_array (bst_arguments_data_ st);;
  emit (ev_receiver (bst_recv_ st) (set_error_c ptr)).

(** ** The completion functions, resolved on the receiver's type *)

Definition set_value (recv : receiver) (vs : values) : M unit :=
  match recv with
  | user_receiver r => emit (ev_receiver r (set_value_c vs))
  | bulk_receiver i => bulk_set_value i vs
  end.

Definition set_stopped (recv : receiver) : M unit :=
  match recv with
  | user_receiver r => emit (ev_receiver r set_stopped_c)
  | bulk_receiver i => bulk_set_stopped i
  end.

Definition set_error (recv : receiver) (e : exception_ptr) : M unit :=
  match recv with
  | user_receiver r => emit (ev_receiver r (set_error_c e))
  | bulk_receiver i => bulk_set_error i e
  end.

(** The invocation of the channel [c] on [recv]. *)
Definition complete (recv : receiver) (c : completion) : M unit :=
  match c with
  | set_value_c vs => set_value recv vs
  | set_stopped_c => set_stopped recv
  | set_error_c e => set_error recv e
  end.

(** ** [__detail::__pass_to_receiver] (lines 24-35) *)
Definition __pass_to_receiver (__completion_type : Z) (__exception : Z)
  (__recv : receiver) : M unit :=
  if __completion_type =? 0 then set_value __recv []
  else if __completion_type =? 1 then set_stopped __recv
  else if __completion_type =? 2 then
    set_error __recv (mk_exception_ptr __exception)
  else ret tt.

(** ** [system_sender::__op] (lines 142-169) *)

(** [tag_invoke(stdexec::start_t, __op& __self)]; [self] is [&__self]. *)
Definition __op_start (self : Z) : M unit :=
  o ← load_op self;
  emit (ev_schedule (op_scheduler_ o) op_cb_ptr self).

(** [__op::__cb]. *)
Definition __op_cb (__data __completion_type __exception : Z) : M unit :=
  __self ← load_op __data;
  __pass_to_receiver __completion_type __exception (op_recv_ __self).

(** [__bulk_intermediate_receiver::__cb]. *)
Definition __bulk_cb (__data __completion_type __exception : Z) : M unit :=
  __state ← load_state __data;
  delete_array (bst_arguments_data_ __state);;
  __pass_to_receiver __completion_type __exception
                     (user_receiver (bst_recv_ __state)).

(** The lambda [__type_erased_fn] of the intermediate [set_value]:
    [std::apply] hands the elements of the stored tuple to the function
    object as lvalues, with the index; what the function object leaves in
    them stays in the tuple. *)
Definition __type_erased_fn (__state_ptr __idx : Z) : M unit :=
  __state ← load_state __state_ptr;
  args ← load_block (bst_arguments_data_ __state);
  emit (ev_fun (sbs_fun_ (bst_snd_ __state)) __idx args);;
  store_block (bst_arguments_data_ __state)
              (call_writes (sbs_fun_ (bst_snd_ __state)) __idx args).

(** What the engine runs when it calls through a pointer it was handed. *)
Definition invoke_callback (cb : callback)
  (data completion_type exception : Z) : M unit :=
  match cb with
  | op_cb_ptr => __op_cb data completion_type exception
  | bulk_cb_ptr => __bulk_cb data completion_type exception
  end.

Definition invoke_item_function (f : item_function) (state idx : Z) : M unit :=
  match f with __type_erased_fn_ptr => __type_erased_fn state idx end.

(** ** Connecting and starting (lines 171-178, 272-307, 334-346) *)

(** [tag_invoke(connect_t, system_sender&&, __R&&)], the operation state
    constructed at [this]. *)
Definition connect_system_sender (self : system_sender) (r : receiver)
  (this : Z) : M unit :=
  store_op this (mk_op r (ss_scheduler_ self)).

(** [tag_invoke(connect_t, system_bulk_sender&&, __R&&)]: the constructor of
    [__bulk_op] at [this] initialises [__state_] from the sender and the
    receiver, then [__previous_operation_state_] from the init functor,
    which connects the input sender to the intermediate receiver. *)
Definition connect_system_bulk_sender (self : system_bulk_sender) (r : R)
  (this : Z) : M unit :=
  store_state this (mk_bulk_state self r nullptr);;
  match sbs_previous_ self with
  | previous_system s =>
      connect_system_sender s (bulk_receiver (mk_intermediate this))
                            (this + previous_operation_state_offset)
  | previous_foreign p =>
      emit (ev_connect_foreign p (mk_intermediate this)
                               (this + previous_operation_state_offset))
  end.

(** [tag_invoke(stdexec::start_t, __bulk_op& __self)]: starts
    [__previous_operation_state_], whose type is fixed by the input sender. *)
Definition __bulk_op_start (self : Z) : M unit :=
  st ← load_state self;
  match sbs_previous_ (bst_snd_ st) with
  | previous_system _ =>
      __op_start (self + previous_operation_state_offset)
  | previous_foreign _ =>
      emit (ev_start_foreign (self + previous_operation_state_offset))
  end.

(** ** Observations on a trace *)

Definition is_scheduler_call (e : event) : bool :=
  match e with
  | ev_schedule _ _ _ | ev_bulk_schedule _ _ _ _ _ => true
  | _ => false
  end.

(** The calls made through the scheduler interface. *)
Definition scheduler_calls (t : list event) : list event :=
  List.filter is_scheduler_call t.

Definition is_fun_call (e : event) : bool :=
  match e with ev_fun _ _ _ => true | _ => false end.

(** The invocations of the function object of [bulk]. *)
Definition fun_calls (t : list event) : list event :=
  List.filter is_fun_call t.

Definition is_foreign_start (e : event) : bool :=
  match e with ev_start_foreign _ => true | _ => false end.

(** The starts of operation states of foreign input senders. *)
Definition foreign_starts (t : list event) : list event :=
  List.filter is_foreign_start t.

(** The indices [idx, idx + n). *)
Fixpoint indices (idx : Z) (n : nat) : list Z :=
  match n with
  | O => []
  | S n' => idx :: indices (idx + 1) n'
  end.

(** The calls of the function object [f] at the indices [idxs], in that
    order, on a tuple that holds [vs] before the first: each call sees what
    the calls before it left. *)
Fixpoint item_calls (f : Fn) (vs : values) (idxs : list Z) : list event :=
  match idxs with
  | [] => []
  | idx :: idxs' => ev_fun f idx vs :: item_calls f (call_writes f idx vs) idxs'
  end.

(** The tuple after those calls. *)
Fixpoint arguments_after (f : Fn) (vs : values) (idxs : list Z) : values :=
  match idxs with
  | [] => vs
  | idx :: idxs' => arguments_after f (call_writes f idx vs) idxs'
  end.

(** The world with more calls on its trace. *)
Definition record_events (es : list event) (w : world) : world :=
  mk_world (ops w) (bulk_states w) (blocks w) (next_block w) (trace w ++ es).

(** Modelled from the spec: the engine's [__bulk_schedule], which lives in
    the absent [__detail/__system_context_default_impl.hpp]. Section 4.3:
    the per-item function is invoked once for each index in [0, count), and
    when all invocations have finished the completion callback is called,
    here with the value discriminant. *)
Fixpoint run_items (fn : item_function) (data : Z) (idx : Z) (n : nat)
  : M unit :=
  match n with
  | O => ret tt
  | S n' => invoke_item_function fn data idx;;
            run_items fn data (idx + 1) n'
  end.

Definition reference_bulk_schedule (cb : callback) (fn : item_function)
  (data size : Z) : M unit :=
  run_items fn data 0 (Z.to_nat size);;
  invoke_callback cb data 0 nullptr.

End Model.

(** ** Schedulers and contexts (lines 44-102, 364-379) *)

Record system_scheduler := mk_system_scheduler { __scheduler_ : Z }.

(** [system_scheduler::operator==]. *)
Definition system_scheduler_eq (lhs rhs : system_scheduler) : bool :=
  __scheduler_ lhs =? __scheduler_ rhs.

Record system_context := mk_system_context { __impl_ : Z }.

(** [tag_invoke(stdexec::schedule_t, const system_scheduler&)]. *)
Definition schedule (sched : system_scheduler) : system_sender :=
  mk_system_sender (__scheduler_ sched).

(** [tag_invoke(stdexec::bulk_t, const system_scheduler&, ...)]. *)
Definition bulk {Fn P : Type} (self : system_scheduler)
  (previous : @previous_sender P) (size : Z) (f : Fn)
  : @system_bulk_sender Fn P :=
  mk_system_bulk_sender (__scheduler_ self) previous size f.

(** Modelled from the spec: the context interface and the process-wide
    registration, which live in the absent
    [__detail/__system_context_default_impl.hpp]. Section 6: a single
    global slot holds the current implementation; an implementation owns
    its scheduler-interface object and its [__get_scheduler] entry returns
    the address of that object (as [my_system_context_impl::get_scheduler]
    of the test does). *)
Record context_implementation := mk_context_implementation {
  scheduler_object : Z
}.

Record process := mk_process {
  implementations : gmap Z context_implementation;
  current_implementation : Z
}.

Definition __get_exec_system_context_impl (p : process) : Z :=
  current_implementation p.

Definition __get_scheduler (p : process) (impl : Z) : option Z :=
  scheduler_object <$> implementations p !! impl.

(** [system_context::system_context()]. *)
Definition system_context_ctor (p : process) : system_context :=
  mk_system_context (__get_exec_system_context_impl p).

(** [system_context::get_scheduler()]; [None] when [__impl_] dangles. *)
Definition get_scheduler (p : process) (self : system_context)
  : option system_scheduler :=
  mk_system_scheduler <$> __get_scheduler p (__impl_ self).

(** [std::thread::hardware_concurrency()] of the C++ standard library: the
    number of hardware thread contexts, or 0 when that number is not
    computable or not well defined. *)
Record platform := mk_platform { hardware_threads : option N }.

Definition hardware_concurrency (pf : platform) : N :=
  match hardware_threads pf with
  | Some n => n
  | None => 0%N
  end.

(** [system_context::max_concurrency()]. *)
Definition max_concurrency (pf : platform) (self : system_context) : N :=
  hardware_concurrency pf.

(** ** Forward progress and environments (lines 104-122, 180-184,
    348-352, 381-393) *)

(** [stdexec::forward_progress_guarantee]. *)
Inductive forward_progress_guarantee :=
| concurrent
| parallel
| weakly_parallel.

(** [tag_invoke(stdexec::get_forward_progress_guarantee_t, const
    system_scheduler&)]. The entry [__get_forward_progress_guarantee] of
    the scheduler interface is the engine's: it is a parameter, applied to
    the scheduler pointer. *)
Definition get_forward_progress_guarantee
  (__get_forward_progress_guarantee : Z → Z) (__self : system_scheduler)
  : forward_progress_guarantee :=
  let answer := __get_forward_progress_guarantee (__scheduler_ __self) in
  if answer =? 0 then concurrent
  else if answer =? 1 then parallel
  else if answer =? 2 then weakly_parallel
  else parallel.

(** [__system_scheduler_env], member [__scheduler_]. *)
Record __system_scheduler_env := mk_system_scheduler_env {
  env_scheduler_ : Z
}.

(** [tag_invoke(get_completion_scheduler_t<set_value_t>, const
    __system_scheduler_env&)]. *)
Definition get_completion_scheduler_set_value (__self : __system_scheduler_env)
  : system_scheduler :=
  mk_system_scheduler (env_scheduler_ __self).

(** [tag_invoke(get_completion_scheduler_t<set_stopped_t>, const
    __system_scheduler_env&)]. *)
Definition get_completion_scheduler_set_stopped
  (__self : __system_scheduler_env) : system_scheduler :=
  mk_system_scheduler (env_scheduler_ __self).

(** [tag_invoke(stdexec::get_env_t, const system_sender&)]. *)
Definition system_sender_get_env (__self : system_sender)
  : __system_scheduler_env :=
  mk_system_scheduler_env (ss_scheduler_ __self).

(** [tag_invoke(stdexec::get_env_t, const system_bulk_sender&)]. *)
Definition system_bulk_sender_get_env {Fn P : Type}
  (__snd : @system_bulk_sender Fn P) : __system_scheduler_env :=
  mk_system_scheduler_env (sbs_scheduler_ __snd).

Section Engine.
Context {R Fn P : Type} `{!FunctionObject Fn}.

(** The world with the block at [p] released. *)
Definition release_block (p : Z) (w : @world R Fn P) : @world R Fn P :=
  mk_world (ops w) (bulk_states w) (delete p (blocks w)) (next_block w)
           (trace w).

(** An engine that calls the item function at the indices [idxs], in that
    order. *)
Fixpoint run_indices (fn : item_function) (data : Z) (idxs : list Z)
  : @M R Fn P unit :=
  match idxs with
  | [] => ret tt
  | idx :: idxs' => invoke_item_function fn data idx;;
                    run_indices fn data idxs'
  end.

End Engine.

(** ** Concrete objects for the examples *)

(** Function objects of the examples. A natural number stands for a function
    object that takes its arguments by value, as the lambdas of the tests
    do: it leaves the tuple as it is. An integer [k] stands for a function
    object that takes its arguments by reference and adds [k] to each. *)
#[export] Instance by_value_function_object : FunctionObject nat :=
  λ _ _ vs, vs.

#[export] Instance adding_function_object : FunctionObject Z :=
  λ k _ vs, Z.add k <$> vs.

(** An empty store, and a bulk sender over a schedule sender of the
    scheduler at 1000, with 3 items. *)
Definition empty_world : @world nat nat unit :=
  mk_world ∅ ∅ ∅ 1%positive [].

Definition bulk_over_schedule : @system_bulk_sender nat unit :=
  bulk (mk_system_scheduler 1000)
       (previous_system (schedule (mk_system_scheduler 1000))) 3 5%nat.

(** The store after connecting [bulk_over_schedule] to receiver 9 at
    address 4096, the inner operation state 64 bytes further. *)
Definition connected_world : @world nat nat unit :=
  mk_world
    {[ 4160 := mk_op (bulk_receiver (mk_intermediate 4096)) 1000 ]}
    {[ 4096 := mk_bulk_state bulk_over_schedule 9%nat nullptr ]}
    ∅ 1%positive [].

(** A process whose registered implementation, at 500, owns the scheduler
    object at 1000. *)
Definition reference_process : process :=
  mk_process {[ 500 := mk_context_implementation 1000 ]} 500.

(** The store after the input of the bulk operation in [connected_world]
    has completed with the value 7: the tuple is in block 1. *)
Definition valued_world : @world nat nat unit :=
  mk_world
    {[ 4160 := mk_op (bulk_receiver (mk_intermediate 4096)) 1000 ]}
    {[ 4096 := mk_bulk_state bulk_over_schedule 9%nat 1 ]}
    {[ 1 := [7] ]} 2%positive
    [ev_bulk_schedule 1000 bulk_cb_ptr __type_erased_fn_ptr 4096 3].


End SystemContext.

(** * The racing combinator

    Modelled from the spec: [exec/when_any.hpp] is not among the sources,
    only its tests are. Section 4.4 and section 5 give the design: a
    racing set with a winner-decided flag, a slot for the winning
    completion and a count-down of outstanding children; the first child
    to complete takes the flag with one compare-and-set and records its
    completion; every other child is asked to cancel through its
    environment; every completing child decrements the count-down, and
    the one decrementer that observes the last child delivers the recorded
    completion to the parent. An execution is an interleaving of child
    completions, each notification one atomic step. *)

Module WhenAny.

Inductive completion :=
| value (vs : list Z)
| error (e : Z)
| cancelled.

(** A leaf task: the completion it reaches on its own, if any, and whether
    it honours a cancellation request by completing with [cancelled]. *)
#[warnings="-register-all"]
Inductive task :=
| leaf (natural : option completion) (cooperative : bool)
| when_any (children : list task).

(** [completes_if{false}] of the tests: never completes on its own, and
    completes with [cancelled] once cancellation is requested. *)
Definition never : task := leaf None true.

(** A task that completes with [c] whether or not it was asked to cancel:
    [just(...)], [just_stopped()], [completes_if{true} | then(...)], a
    schedule on [stopped_scheduler]. *)
Definition completes (c : completion) : task := leaf (Some c) false.

(** Operation states. A leaf keeps the completion it has reached; a racing
    set keeps the recorded winner (flag and slot), the count-down, and the
    completion it has delivered to its parent. *)
#[warnings="-register-all"]
Inductive op :=
| leaf_op (natural : option completion) (cooperative : bool)
          (reached : option completion)
| any_op (winner : option completion) (outstanding : nat)
         (delivered : option completion) (kids : list op).

(** [bind]: allocates the operation state and wires the children. *)
Fixpoint connect (t : task) : op :=
  match t with
  | leaf natural cooperative => leaf_op natural cooperative None
  | when_any children =>
      any_op None (length children) None (List.map connect children)
  end.

(** The completion an operation state has handed to its parent: it is in
    its terminal state exactly when there is one. *)
Definition emitted (o : op) : option completion :=
  match o with
  | leaf_op _ _ reached => reached
  | any_op _ _ delivered _ => delivered
  end.

(** The winner flag of a slot, and the terminal flag of an operation
    state. *)
Definition decided (slot : option completion) : bool :=
  match slot with Some _ => true | None => false end.

Definition terminal (o : op) : bool := decided (emitted o).

(** How a leaf completes: on its own, or in answer to a cancellation
    request. *)
Inductive how := naturally | on_request.

Definition leaf_completion (natural : option completion) (cooperative : bool)
  (stop : bool) (h : how) : option completion :=
  match h with
  | naturally => natural
  | on_request => if cooperative && stop then Some cancelled else None
  end.

(** A child of the racing set has completed with [c]: one compare-and-set
    on the winner flag, one decrement-and-test of the count-down. *)
Definition notify (winner : option completion) (outstanding : nat)
  (delivered : option completion) (c : completion)
  : option completion * nat * option completion :=
  let winner' := match winner with None => Some c | Some _ => winner end in
  if Nat.eqb outstanding 1
  then (winner', Nat.pred outstanding, winner')
  else (winner', Nat.pred outstanding, delivered).

(** One step: the leaf at [path] completes. [stop] tells whether
    cancellation has been requested from outside the operation state; inside
    a racing set it has also been requested once the winner is decided. The
    result is the new state and the completion handed to the parent, if the
    step made this operation state complete. *)
Fixpoint fire (stop : bool) (path : list nat) (h : how) (o : op)
  : option (op * option completion) :=
  match path, o with
  | [], leaf_op natural cooperative None =>
      match leaf_completion natural cooperative stop h with
      | Some c => Some (leaf_op natural cooperative (Some c), Some c)
      | None => None
      end
  | i :: path', any_op winner outstanding delivered kids =>
      match kids !! i with
      | Some kid =>
          match fire (stop || decided winner) path' h kid with
          | Some (kid', Some c) =>
              let '(w', n', d') := notify winner outstanding delivered c in
              Some (any_op w' n' d' (<[i := kid']> kids),
                    if Nat.eqb outstanding 1 then d' else None)
          | Some (kid', None) =>
              Some (any_op winner outstanding delivered (<[i := kid']> kids),
                    None)
          | None => None
          end
      | None => None
      end
  | _, _ => None
  end.

(** The steps of an operation state whose parent has ([stop = true]) or
    has not requested cancellation. *)
Definition step (stop : bool) (o o' : op) : Prop :=
  ∃ path h e, fire stop path h o = Some (o', e).

(** The children of a racing set that are still outstanding. *)
Definition pending (kids : list op) : nat :=
  length (List.filter (λ k, negb (terminal k)) kids).

(** The racing-set state is consistent with the children: the count-down
    counts the children that have not completed, a delivered completion is
    the recorded winner and leaves nothing outstanding, and the recorded
    winner is the completion of one of the children. *)
#[warnings="-register-all"]
Inductive consistent : op → Prop :=
| consistent_leaf natural cooperative reached :
    consistent (leaf_op natural cooperative reached)
| consistent_any winner outstanding delivered kids :
    Forall consistent kids →
    outstanding = pending kids →
    (∀ c, delivered = Some c → outstanding = O ∧ winner = Some c) →
    (∀ c, winner = Some c → ∃ k, k ∈ kids ∧ emitted k = Some c) →
    (outstanding = O → kids ≠ [] →
     ∃ c, winner = Some c ∧ delivered = Some c) →
    consistent (any_op winner outstanding delivered kids).

(** The executions: any interleaving of steps, with or without a
    cancellation request from outside. *)
Definition reachable (o o' : op) : Prop :=
  rtc (λ o1 o2, ∃ stop, step stop o1 o2) o o'.

(** ** A scheduler: always the first leaf that can complete *)

Definition leaf_ready (natural : option completion) (cooperative : bool)
  (stop : bool) : option how :=
  match natural with
  | Some _ => Some naturally
  | None => if cooperative && stop then Some on_request else None
  end.

Fixpoint next_ready (stop : bool) (o : op) : option (list nat * how) :=
  match o with
  | leaf_op natural cooperative None =>
      match leaf_ready natural cooperative stop with
      | Some h => Some ([], h)
      | None => None
      end
  | leaf_op _ _ (Some _) => None
  | any_op winner _ _ kids =>
      (fix first (i : nat) (ks : list op) : option (list nat * how) :=
         match ks with
         | [] => None
         | k :: ks' =>
             match next_ready (stop || decided winner) k with
             | Some (p, h) => Some (i :: p, h)
             | None => first (S i) ks'
             end
         end) O kids
  end.

Fixpoint run (fuel : nat) (o : op) : op :=
  match fuel with
  | O => o
  | S fuel' =>
      match next_ready false o with
      | Some (p, h) =>
          match fire false p h o with
          | Some (o', _) => run fuel' o'
          | None => o
          end
      | None => o
      end
  end.

Fixpoint leaves (t : task) : nat :=
  match t with
  | leaf _ _ => 1
  | when_any children =>
      (fix sum (ts : list task) : nat :=
         match ts with
         | [] => O
         | t' :: ts' => (leaves t' + sum ts')%nat
         end) children
  end.

(** The overall result of binding [t], starting it and letting every leaf
    that can complete do so. *)
Definition result (t : task) : option completion :=
  emitted (run (leaves t) (connect t)).

(** ** Shutdown ordering *)

(** No operation state in [o] is in flight. *)
Fixpoint quiescent (o : op) : bool :=
  match o with
  | leaf_op _ _ reached => decided reached
  | any_op _ _ delivered kids =>
      decided delivered && forallb quiescent kids
  end.

(** Every racing set in [o] that has delivered its completion has only
    terminal children. *)
Fixpoint shutdown_ordered (o : op) : bool :=
  match o with
  | leaf_op _ _ _ => true
  | any_op _ _ delivered kids =>
      implb (decided delivered) (forallb terminal kids)
      && forallb shutdown_ordered kids
  end.

(** ** Racing a task that never completes against one that does *)

(** The states of [when_any(never, completes v)] and of
    [when_any(completes v, never)]: nothing has completed; the completing
    task has won and cancellation is requested; the other task has answered
    the request and the result is delivered. *)
Inductive race_state (v : list Z) : op → Prop :=
| race_started_r :
    race_state v (any_op None 2 None
                         [leaf_op None true None;
                          leaf_op (Some (value v)) false None])
| race_won_r :
    race_state v (any_op (Some (value v)) 1 None
                         [leaf_op None true None;
                          leaf_op (Some (value v)) false (Some (value v))])
| race_over_r :
    race_state v (any_op (Some (value v)) 0 (Some (value v))
                         [leaf_op None true (Some cancelled);
                          leaf_op (Some (value v)) false (Some (value v))])
| race_started_l :
    race_state v (any_op None 2 None
                         [leaf_op (Some (value v)) false None;
                          leaf_op None true None])
| race_won_l :
    race_state v (any_op (Some (value v)) 1 None
                         [leaf_op (Some (value v)) false (Some (value v));
                          leaf_op None true None])
| race_over_l :
    race_state v (any_op (Some (value v)) 0 (Some (value v))
                         [leaf_op (Some (value v)) false (Some (value v));
                          leaf_op None true (Some cancelled)]).

End WhenAny.

(** * Theorems about the system context *)

Module SystemContextFacts.
Import SystemContext.

Section Facts.
Context {R Fn P : Type} `{!FunctionObject Fn}.
Local Abbreviation receiver := (@receiver R).
Local Abbreviation world := (@world R Fn P).
Local Abbreviation M := (@M R Fn P).

(** For the value and the cancelled channel the payload pointer is not
    looked at. *)
Lemma pass_to_receiver_value (p : Z) (recv : receiver) :
  @__pass_to_receiver R Fn P 0 p recv = set_value recv [].
Proof. reflexivity. Qed.

Lemma pass_to_receiver_stopped (p : Z) (recv : receiver) :
  @__pass_to_receiver R Fn P 1 p recv = set_stopped recv.
Proof. reflexivity. Qed.

Lemma pass_to_receiver_error (p : Z) (recv : receiver) :
  @__pass_to_receiver R Fn P 2 p recv = set_error recv (mk_exception_ptr p).
Proof. reflexivity. Qed.

Lemma pass_to_receiver_other (ct p : Z) (recv : receiver) :
  ct ≠ 0 → ct ≠ 1 → ct ≠ 2 → @__pass_to_receiver R Fn P ct p recv = ret tt.
Proof.
  intros H0 H1 H2. unfold __pass_to_receiver.
  destruct (Z.eqb_spec ct 0) as [|_]; [contradiction|].
  destruct (Z.eqb_spec ct 1) as [|_]; [contradiction|].
  destruct (Z.eqb_spec ct 2) as [|_]; [contradiction|].
  reflexivity.
Qed.

Lemma pass_to_receiver_encode (c : boundary_completion) (recv : receiver) :
  @__pass_to_receiver R Fn P (encode c).1 (encode c).2 recv
  = complete recv (channel_of c).
Proof. destruct c as [| |[e]]; reflexivity. Qed.

Lemma op_cb_unfold (data ct p : Z) (o : __op) (w : world) :
  ops w !! data = Some o →
  __op_cb data ct p w = __pass_to_receiver ct p (op_recv_ o) w.
Proof.
  intros Hop. unfold __op_cb, mbind, M_bind, bind, load_op.
  rewrite Hop. reflexivity.
Qed.

(** C1. Round trip of the completion encoding: a completion encoded as its
    discriminant (0 value, 1 cancelled, 2 error) and payload pointer, then
    decoded by [__pass_to_receiver], is the invocation of the matching
    channel on the receiver, the error with an equal [exception_ptr]; on a
    user receiver that is exactly one call, the matching one; and the
    callback [__op::__cb] decodes to the receiver stored in the operation
    state its context points to. *)
Theorem pass_to_receiver_round_trip (c : boundary_completion) :
  (∀ recv : receiver,
      @__pass_to_receiver R Fn P (encode c).1 (encode c).2 recv
      = complete recv (channel_of c))
  ∧ (∀ (r : R) (w : world),
        __pass_to_receiver (encode c).1 (encode c).2 (user_receiver r) w
        = Some (tt, record_event (ev_receiver r (channel_of c)) w))
  ∧ (∀ (data : Z) (o : __op) (w : world),
        ops w !! data = Some o →
        __op_cb data (encode c).1 (encode c).2 w
        = complete (op_recv_ o) (channel_of c) w).
Proof.
  split; [|split].
  - intros recv. apply pass_to_receiver_encode.
  - intros r w. rewrite pass_to_receiver_encode.
    destruct c; reflexivity.
  - intros data o w Hop. rewrite (op_cb_unfold _ _ _ o) by exact Hop.
    rewrite pass_to_receiver_encode. reflexivity.
Qed.

(** C9. A discriminant outside 0, 1, 2 is dropped: [__pass_to_receiver]
    returns normally without calling any channel of the receiver, whatever
    the receiver, so the world and its trace are unchanged; the same holds
    when the engine delivers it through [__op::__cb]. *)
Theorem pass_to_receiver_malformed_discriminant
  (ct p : Z) (recv : receiver) (w : world) :
  ct ≠ 0 → ct ≠ 1 → ct ≠ 2 →
  __pass_to_receiver ct p recv w = Some (tt, w)
  ∧ (∀ (data : Z) (sched : Z),
        ops w !! data = Some (mk_op recv sched) →
        __op_cb data ct p w = Some (tt, w)).
Proof.
  intros H0 H1 H2. split.
  - rewrite pass_to_receiver_other by assumption. reflexivity.
  - intros data sched Hop. rewrite (op_cb_unfold _ _ _ _ _ Hop).
    rewrite pass_to_receiver_other by assumption. reflexivity.
Qed.

(** ** Connecting and starting *)

Variable off : Z.

Lemma scheduler_calls_app (t1 t2 : list (@event R Fn P)) :
  scheduler_calls (t1 ++ t2) = scheduler_calls t1 ++ scheduler_calls t2.
Proof. apply List.filter_app. Qed.

Lemma fun_calls_app (t1 t2 : list (@event R Fn P)) :
  fun_calls (t1 ++ t2) = fun_calls t1 ++ fun_calls t2.
Proof. apply List.filter_app. Qed.

Lemma connect_system_sender_spec (s : system_sender) (recv : receiver)
  (this : Z) (w : world) :
  connect_system_sender s recv this w
  = Some (tt, mk_world (<[this := mk_op recv (ss_scheduler_ s)]> (ops w))
                       (bulk_states w) (blocks w) (next_block w) (trace w)).
Proof. reflexivity. Qed.

Lemma op_start_spec (this : Z) (o : __op) (w : world) :
  ops w !! this = Some o →
  __op_start this w
  = Some (tt, record_event (ev_schedule (op_scheduler_ o) op_cb_ptr this) w).
Proof.
  intros Hop. unfold __op_start, mbind, M_bind, bind, load_op.
  rewrite Hop. reflexivity.
Qed.

(** What connecting a bulk sender leaves behind: the bulk state at [this],
    with no argument block yet, and no new call through the scheduler
    interface nor to the function object. *)
Lemma connect_bulk_spec (snd : system_bulk_sender) (r : R) (this : Z)
  (w : world) :
  ∃ w1, connect_system_bulk_sender off snd r this w = Some (tt, w1)
        ∧ bulk_states w1 !! this = Some (mk_bulk_state snd r nullptr)
        ∧ blocks w1 = blocks w
        ∧ scheduler_calls (trace w1) = scheduler_calls (trace w)
        ∧ fun_calls (trace w1) = fun_calls (trace w).
Proof.
  unfold connect_system_bulk_sender, mbind, M_bind, bind, store_state.
  destruct (sbs_previous_ snd) as [s|p]; eexists; (split; [reflexivity|]);
    cbn [bulk_states blocks trace record_event];
    rewrite ?scheduler_calls_app, ?fun_calls_app, ?app_nil_r;
    repeat split; try apply lookup_insert_eq.
Qed.

(** C2, as the code has it. Connecting begins no work and always returns:
    for a schedule sender it only constructs the operation state; for a
    bulk sender it constructs the bulk state and connects the input sender
    to the intermediate receiver, which for a schedule input is again only
    a construction and for any other input is the one call of that
    sender's [connect]; in no case is there a call through the scheduler
    interface, a start of an operation state or a call of the function
    object. Starting the operation state of a schedule sender makes exactly
    one call, [__schedule] on the sender's scheduler with [__op::__cb] and
    the operation state's own address. Starting a bulk operation state only
    starts the inner operation state: over a schedule sender that is
    exactly one [__schedule] call, whose context is the address of the
    inner operation state (the member [__previous_operation_state_]), not
    the address of the bulk operation state; over any other input sender it
    is exactly the start of that sender's operation state. *)
Theorem connect_begins_no_work_start_schedules_once :
  (∀ (s : system_sender) (recv : receiver) (this : Z) (w : world),
      let w1 := mk_world (<[this := mk_op recv (ss_scheduler_ s)]> (ops w))
                         (bulk_states w) (blocks w) (next_block w) (trace w) in
      connect_system_sender s recv this w = Some (tt, w1)
      ∧ __op_start this w1
        = Some (tt, record_event
                      (ev_schedule (ss_scheduler_ s) op_cb_ptr this) w1))
  ∧ (∀ (sched : Z) (s : system_sender) (size : Z) (f : Fn) (r : R)
       (this : Z) (w : world),
        let snd := mk_system_bulk_sender sched (previous_system s) size f in
        let w1 :=
          mk_world
            (<[this + off :=
                 mk_op (bulk_receiver (mk_intermediate this))
                       (ss_scheduler_ s)]> (ops w))
            (<[this := mk_bulk_state snd r nullptr]> (bulk_states w))
            (blocks w) (next_block w) (trace w) in
        connect_system_bulk_sender off snd r this w = Some (tt, w1)
        ∧ __bulk_op_start off this w1
          = Some (tt, record_event
                        (ev_schedule (ss_scheduler_ s) op_cb_ptr (this + off))
                        w1))
  ∧ (∀ (sched : Z) (p : P) (size : Z) (f : Fn) (r : R) (this : Z)
       (w : world),
        let snd := mk_system_bulk_sender sched (previous_foreign p) size f in
        let w1 :=
          record_event
            (ev_connect_foreign p (mk_intermediate this) (this + off))
            (mk_world (ops w)
                      (<[this := mk_bulk_state snd r nullptr]> (bulk_states w))
                      (blocks w) (next_block w) (trace w)) in
        connect_system_bulk_sender off snd r this w = Some (tt, w1)
        ∧ __bulk_op_start off this w1
          = Some (tt, record_event (ev_start_foreign (this + off)) w1))
  ∧ (∀ (snd : system_bulk_sender) (r : R) (this : Z) (w : world),
        ∃ w1, connect_system_bulk_sender off snd r this w = Some (tt, w1)
              ∧ scheduler_calls (trace w1) = scheduler_calls (trace w)
              ∧ foreign_starts (trace w1) = foreign_starts (trace w)
              ∧ fun_calls (trace w1) = fun_calls (trace w)).
Proof.
  split; [|split; [|split]].
  - intros s recv this w w1. split; [apply connect_system_sender_spec|].
    rewrite (op_start_spec this (mk_op recv (ss_scheduler_ s)));
      [reflexivity | apply lookup_insert_eq].
  - intros sched s size f r this w snd w1. split; [reflexivity|].
    unfold __bulk_op_start, mbind, M_bind, bind, load_state.
    subst w1. cbn [bulk_states]. rewrite lookup_insert_eq.
    cbn [bst_snd_ sbs_previous_ snd].
    rewrite (op_start_spec (this + off)
               (mk_op (bulk_receiver (mk_intermediate this)) (ss_scheduler_ s)));
      [reflexivity | cbn [ops]; apply lookup_insert_eq].
  - intros sched p size f r this w snd w1. split; [reflexivity|].
    unfold __bulk_op_start, mbind, M_bind, bind, load_state.
    subst w1. cbn [bulk_states record_event]. rewrite lookup_insert_eq.
    reflexivity.
  - intros snd r this w.
    unfold connect_system_bulk_sender, mbind, M_bind, bind, store_state.
    destruct (sbs_previous_ snd) as [s|p]; eexists; (split; [reflexivity|]);
      cbn [trace record_event];
      unfold scheduler_calls, foreign_starts, fun_calls;
      rewrite ?List.filter_app; cbn; rewrite ?app_nil_r; repeat split.
Qed.

(** ** The bulk operation *)

Lemma bulk_set_stopped_spec (self : __bulk_intermediate_receiver)
  (st : __bulk_state) (w : world) :
  bulk_states w !! __state_ self = Some st →
  bst_arguments_data_ st = nullptr →
  bulk_set_stopped self w
  = Some (tt, record_event (ev_receiver (bst_recv_ st) set_stopped_c) w).
Proof.
  intros Hst Hargs.
  unfold bulk_set_stopped, mbind, M_bind, bind, load_state, delete_array.
  rewrite Hst, Hargs. reflexivity.
Qed.

Lemma bulk_set_error_spec (self : __bulk_intermediate_receiver)
  (st : __bulk_state) (e : exception_ptr) (w : world) :
  bulk_states w !! __state_ self = Some st →
  bst_arguments_data_ st = nullptr →
  bulk_set_error self e w
  = Some (tt, record_event (ev_receiver (bst_recv_ st) (set_error_c e)) w).
Proof.
  intros Hst Hargs.
  unfold bulk_set_error, mbind, M_bind, bind, load_state, delete_array.
  rewrite Hst, Hargs. reflexivity.
Qed.

(** C7. The inner task of a bulk operation completes by calling the
    intermediate receiver. While the bulk state is as [connect] left it
    (no argument block), its [set_stopped] makes exactly one call,
    [set_stopped] on the receiver of the bulk operation, and its
    [set_error] makes exactly one call, [set_error] on that receiver with
    the same [exception_ptr]: no call to [__bulk_schedule] and no
    invocation of the function object. The same holds when the inner task
    is a schedule sender and the engine reports cancelled (1) or error (2)
    to its callback. *)
Theorem bulk_forwards_stopped_and_error
  (self : __bulk_intermediate_receiver) (st : __bulk_state) (w : world) :
  bulk_states w !! __state_ self = Some st →
  bst_arguments_data_ st = nullptr →
  let r := bst_recv_ st in
  set_stopped (bulk_receiver self) w
  = Some (tt, record_event (ev_receiver r set_stopped_c) w)
  ∧ (∀ e, set_error (bulk_receiver self) e w
          = Some (tt, record_event (ev_receiver r (set_error_c e)) w))
  ∧ (∀ c, scheduler_calls (trace (record_event (ev_receiver r c) w))
          = scheduler_calls (trace w)
          ∧ fun_calls (trace (record_event (ev_receiver r c) w))
            = fun_calls (trace w))
  ∧ (∀ data sched p,
        ops w !! data = Some (mk_op (bulk_receiver self) sched) →
        __op_cb data 1 p w
        = Some (tt, record_event (ev_receiver r set_stopped_c) w)
        ∧ __op_cb data 2 p w
          = Some (tt, record_event
                        (ev_receiver r (set_error_c (mk_exception_ptr p))) w)).
Proof.
  intros Hst Hargs r. split; [|split; [|split]].
  - apply bulk_set_stopped_spec; assumption.
  - intros e. apply bulk_set_error_spec; assumption.
  - intros c. cbn [trace record_event].
    rewrite scheduler_calls_app, fun_calls_app. cbn.
    rewrite !app_nil_r. split; reflexivity.
  - intros data sched p Hop. split.
    + rewrite (op_cb_unfold _ _ _ _ _ Hop), pass_to_receiver_stopped.
      apply bulk_set_stopped_spec; assumption.
    + rewrite (op_cb_unfold _ _ _ _ _ Hop), pass_to_receiver_error.
      apply bulk_set_error_spec; assumption.
Qed.

(** After [connect], whatever the input sender, the bulk state is live and
    has no argument block, so both channels forward. *)
Lemma bulk_forwards_after_connect (snd : system_bulk_sender) (r : R)
  (this : Z) (w : world) :
  ∃ w1, connect_system_bulk_sender off snd r this w = Some (tt, w1)
        ∧ set_stopped (bulk_receiver (mk_intermediate this)) w1
          = Some (tt, record_event (ev_receiver r set_stopped_c) w1)
        ∧ ∀ e, set_error (bulk_receiver (mk_intermediate this)) e w1
               = Some (tt, record_event (ev_receiver r (set_error_c e)) w1).
Proof.
  destruct (connect_bulk_spec snd r this w) as (w1 & Hc & Hst & _).
  exists w1. split; [exact Hc|]. split.
  - exact (bulk_set_stopped_spec (mk_intermediate this) _ w1 Hst eq_refl).
  - intros e.
    exact (bulk_set_error_spec (mk_intermediate this) _ e w1 Hst eq_refl).
Qed.

(** One call of the item function: the function object is called with the
    index and the elements of the tuple, and what it leaves in them is
    kept. *)
Lemma type_erased_fn_spec (data idx : Z) (st : __bulk_state) (vs : values)
  (w : world) :
  bulk_states w !! data = Some st →
  blocks w !! bst_arguments_data_ st = Some vs →
  __type_erased_fn data idx w
  = Some (tt, mk_world (ops w) (bulk_states w)
                       (<[bst_arguments_data_ st :=
                            call_writes (sbs_fun_ (bst_snd_ st)) idx vs]>
                          (blocks w))
                       (next_block w)
                       (trace w ++ [ev_fun (sbs_fun_ (bst_snd_ st)) idx vs])).
Proof.
  intros Hst Hblk.
  unfold __type_erased_fn, mbind, M_bind, bind, load_state, load_block.
  rewrite Hst, Hblk. reflexivity.
Qed.

Lemma run_indices_spec (data : Z) (st : __bulk_state) (idxs : list Z) :
  ∀ (vs : values) (w : world),
    bulk_states w !! data = Some st →
    blocks w !! bst_arguments_data_ st = Some vs →
    run_indices __type_erased_fn_ptr data idxs w
    = Some (tt, mk_world (ops w) (bulk_states w)
                         (<[bst_arguments_data_ st :=
                              arguments_after (sbs_fun_ (bst_snd_ st)) vs idxs]>
                            (blocks w))
                         (next_block w)
                         (trace w
                          ++ item_calls (sbs_fun_ (bst_snd_ st)) vs idxs)).
Proof.
  induction idxs as [|idx idxs IH]; intros vs w Hst Hblk.
  - cbn [run_indices item_calls arguments_after]. unfold ret.
    rewrite app_nil_r, (insert_id _ _ _ Hblk). destruct w; reflexivity.
  - cbn [run_indices item_calls arguments_after invoke_item_function].
    unfold mbind at 1, M_bind at 1, bind at 1.
    rewrite (type_erased_fn_spec data idx st vs w Hst Hblk).
    rewrite (IH (call_writes (sbs_fun_ (bst_snd_ st)) idx vs));
      [| exact Hst | apply lookup_insert_eq].
    cbn [ops bulk_states blocks next_block trace].
    rewrite insert_insert_eq, <- app_assoc. reflexivity.
Qed.

Lemma run_items_indices (fn : item_function) (data : Z) (n : nat) :
  ∀ idx : Z,
    @run_items R Fn P _ fn data idx n = run_indices fn data (indices idx n).
Proof.
  induction n as [|n IH]; intros idx; [reflexivity|].
  cbn [run_items indices run_indices]. rewrite IH. reflexivity.
Qed.


Lemma bulk_set_value_spec (self : __bulk_intermediate_receiver)
  (st : __bulk_state) (vs : values) (w : world) :
  bulk_states w !! __state_ self = Some st →
  bulk_set_value self vs w
  = Some (tt, record_event
                (ev_bulk_schedule (sbs_scheduler_ (bst_snd_ st)) bulk_cb_ptr
                                  __type_erased_fn_ptr (__state_ self)
                                  (sbs_size_ (bst_snd_ st)))
                (mk_world (ops w)
                          (<[__state_ self :=
                               mk_bulk_state (bst_snd_ st) (bst_recv_ st)
                                             (Z.pos (next_block w))]>
                             (bulk_states w))
                          (<[Z.pos (next_block w) := vs]> (blocks w))
                          (Pos.succ (next_block w)) (trace w))).
Proof.
  intros Hst. unfold bulk_set_value, mbind, M_bind, bind, load_state.
  rewrite Hst. reflexivity.
Qed.

(** C3, what the code does. When the inner task completes with the values
    [vs], the intermediate receiver stores them and calls [__bulk_schedule];
    an engine that runs the item function once per index and then reports
    value makes the function object see the stored values at every index
    ([vs], as the calls before left them), after which [__cb] calls
    [set_value] on the receiver of the bulk operation with no values at
    all: [vs] is not carried to the receiver. *)
Theorem bulk_value_completion_carries_no_values
  (self : __bulk_intermediate_receiver) (st : __bulk_state) (vs : values)
  (w : world) :
  bulk_states w !! __state_ self = Some st →
  let snd := bst_snd_ st in
  ∃ w2,
    (bulk_set_value self vs;;
     reference_bulk_schedule bulk_cb_ptr __type_erased_fn_ptr
                             (__state_ self) (sbs_size_ snd)) w
    = Some (tt, w2)
    ∧ trace w2
      = trace w
        ++ [ev_bulk_schedule (sbs_scheduler_ snd) bulk_cb_ptr
                             __type_erased_fn_ptr (__state_ self)
                             (sbs_size_ snd)]
        ++ item_calls (sbs_fun_ snd) vs (indices 0 (Z.to_nat (sbs_size_ snd)))
        ++ [ev_receiver (bst_recv_ st) (set_value_c [])].
Proof.
  intros Hst snd.
  unfold mbind at 1, M_bind at 1, bind at 1.
  rewrite (bulk_set_value_spec self st vs w Hst).
  set (p := Z.pos (next_block w)).
  set (st' := mk_bulk_state (bst_snd_ st) (bst_recv_ st) p).
  set (w1 := record_event _ _).
  assert (Hst1 : bulk_states w1 !! __state_ self = Some st')
    by apply lookup_insert_eq.
  assert (Hblk1 : blocks w1 !! bst_arguments_data_ st' = Some vs)
    by apply lookup_insert_eq.
  unfold reference_bulk_schedule, mbind, M_bind, bind.
  rewrite run_items_indices.
  rewrite (run_indices_spec _ st' _ vs w1 Hst1 Hblk1).
  cbn [invoke_callback]. unfold __bulk_cb, mbind, M_bind, bind, load_state.
  cbn [bulk_states]. rewrite Hst1.
  unfold delete_array. cbn [bst_arguments_data_ st' blocks].
  change (p =? nullptr) with false. cbn iota. rewrite lookup_insert_eq.
  rewrite pass_to_receiver_value.
  eexists. split; [reflexivity|]. cbn.
  rewrite <- !app_assoc. reflexivity.
Qed.

(** ** Schedulers and contexts *)

End Facts.

Lemma system_scheduler_eq_iff (a b : system_scheduler) :
  system_scheduler_eq a b = true ↔ __scheduler_ a = __scheduler_ b.
Proof. unfold system_scheduler_eq. apply Z.eqb_eq. Qed.

Lemma get_scheduler_live (p : process) (impl : context_implementation) :
  implementations p !! current_implementation p = Some impl →
  get_scheduler p (system_context_ctor p)
  = Some (mk_system_scheduler (scheduler_object impl)).
Proof.
  intros Himpl.
  unfold get_scheduler, __get_scheduler, system_context_ctor,
    __get_exec_system_context_impl.
  cbn [__impl_]. rewrite Himpl. reflexivity.
Qed.

(** C8. [operator==] on two scheduler handles is true exactly when they
    wrap the same scheduler-interface pointer, and false otherwise. With
    the context implementation of the spec, two handles obtained from one
    [system_context] compare equal, and so do handles obtained from two
    [system_context] objects constructed while the same implementation is
    registered, and a context constructed while a live implementation is
    registered does yield a handle. *)
Theorem system_scheduler_eq_same_engine :
  (∀ a b : system_scheduler,
      (system_scheduler_eq a b = true ↔ __scheduler_ a = __scheduler_ b)
      ∧ (system_scheduler_eq a b = false ↔ __scheduler_ a ≠ __scheduler_ b))
  ∧ (∀ (p : process) (ctx : system_context) (s1 s2 : system_scheduler),
        get_scheduler p ctx = Some s1 →
        get_scheduler p ctx = Some s2 →
        system_scheduler_eq s1 s2 = true)
  ∧ (∀ (p : process) (impl : context_implementation),
        implementations p !! current_implementation p = Some impl →
        let ctx1 := system_context_ctor p in
        let ctx2 := system_context_ctor p in
        ∃ s1 s2, get_scheduler p ctx1 = Some s1
                 ∧ get_scheduler p ctx2 = Some s2
                 ∧ system_scheduler_eq s1 s2 = true).
Proof.
  split; [|split].
  - intros a b. split; [apply system_scheduler_eq_iff|].
    unfold system_scheduler_eq. apply Z.eqb_neq.
  - intros p ctx s1 s2 H1 H2. rewrite H1 in H2. injection H2 as <-.
    apply system_scheduler_eq_iff. reflexivity.
  - intros p impl Himpl ctx1 ctx2.
    exists (mk_system_scheduler (scheduler_object impl)),
           (mk_system_scheduler (scheduler_object impl)).
    subst ctx1 ctx2. rewrite (get_scheduler_live p impl Himpl).
    repeat split. apply system_scheduler_eq_iff. reflexivity.
Qed.

(** C10. [max_concurrency] is [std::thread::hardware_concurrency()]: its
    result does not depend on the context it is called on, so not on the
    implementation registered when the context was constructed, and it is
    0 on a platform whose hardware concurrency is unknown. *)
Theorem max_concurrency_is_hardware_concurrency :
  (∀ (pf : platform) (ctx : system_context),
      max_concurrency pf ctx = hardware_concurrency pf)
  ∧ (∀ (pf : platform) (p1 p2 : process),
        max_concurrency pf (system_context_ctor p1)
        = max_concurrency pf (system_context_ctor p2))
  ∧ (∀ ctx : system_context, max_concurrency (mk_platform None) ctx = 0%N).
Proof. repeat split. Qed.

(** ** Concrete runs *)

Lemma connected_world_connect :
  connect_system_bulk_sender 64 bulk_over_schedule 9%nat 4096 empty_world
  = Some (tt, connected_world).
Proof. reflexivity. Qed.

Lemma pass_to_receiver_round_trip_witness :
  ops connected_world !! 4160
  = Some (mk_op (bulk_receiver (mk_intermediate 4096)) 1000)
  ∧ __op_cb 4160 2 77 connected_world
    = set_error (bulk_receiver (mk_intermediate 4096)) (mk_exception_ptr 77)
                connected_world.
Proof.
  split; [reflexivity|].
  exact (proj2 (proj2 (pass_to_receiver_round_trip
                         (bc_error (mk_exception_ptr 77))))
               4160 _ connected_world eq_refl).
Defined.

Lemma pass_to_receiver_malformed_discriminant_witness :
  @__pass_to_receiver nat nat unit 3 0 (user_receiver 9%nat) empty_world
  = Some (tt, empty_world).
Proof.
  refine (proj1 (pass_to_receiver_malformed_discriminant
                   3 0 (user_receiver 9%nat) empty_world _ _ _)); lia.
Defined.

Lemma bulk_forwards_stopped_and_error_witness :
  set_stopped (bulk_receiver (mk_intermediate 4096)) connected_world
  = Some (tt, record_event (ev_receiver 9%nat set_stopped_c) connected_world).
Proof.
  exact (proj1 (bulk_forwards_stopped_and_error
                  (mk_intermediate 4096)
                  (mk_bulk_state bulk_over_schedule 9%nat nullptr)
                  connected_world eq_refl eq_refl)).
Defined.

(** The failing input of C3: the inner task completes with the value 7. *)
Lemma bulk_value_completion_carries_no_values_witness :
  ∃ w2,
    (bulk_set_value (mk_intermediate 4096) [7];;
     reference_bulk_schedule bulk_cb_ptr __type_erased_fn_ptr 4096 3)
      connected_world
    = Some (tt, w2)
    ∧ trace w2
      = [ev_bulk_schedule 1000 bulk_cb_ptr __type_erased_fn_ptr 4096 3;
         ev_fun 5%nat 0 [7]; ev_fun 5%nat 1 [7]; ev_fun 5%nat 2 [7];
         ev_receiver 9%nat (set_value_c [])].
Proof.
  exact (bulk_value_completion_carries_no_values
           (mk_intermediate 4096)
           (mk_bulk_state bulk_over_schedule 9%nat nullptr)
           [7] connected_world eq_refl).
Defined.

(** C2 as stated fails for a bulk sender: the context of the one
    [__schedule] call that starting the bulk operation state at 4096 makes
    is 4160, the address of the inner operation state, not 4096. *)
Lemma bulk_start_context_counterexample :
  ¬ (∀ (snd : @system_bulk_sender nat unit) (r : nat) (this : Z)
       (w w1 w2 : @world nat nat unit),
        connect_system_bulk_sender 64 snd r this w = Some (tt, w1) →
        __bulk_op_start 64 this w1 = Some (tt, w2) →
        ∃ sched cb,
          scheduler_calls (trace w2)
          = scheduler_calls (trace w) ++ [ev_schedule sched cb this]).
Proof.
  intros Hclaim.
  destruct (Hclaim bulk_over_schedule 9%nat 4096 empty_world connected_world
              (record_event (ev_schedule 1000 op_cb_ptr 4160) connected_world)
              eq_refl eq_refl)
    as (sched & cb & Hcalls).
  cbn in Hcalls. discriminate Hcalls.
Qed.

Lemma system_scheduler_eq_same_engine_witness :
  implementations reference_process !! current_implementation reference_process
  = Some (mk_context_implementation 1000)
  ∧ ∃ s1 s2,
      get_scheduler reference_process (system_context_ctor reference_process)
      = Some s1
      ∧ get_scheduler reference_process (system_context_ctor reference_process)
        = Some s2
      ∧ system_scheduler_eq s1 s2 = true.
Proof.
  split; [reflexivity|].
  exact (proj2 (proj2 system_scheduler_eq_same_engine)
               reference_process (mk_context_implementation 1000) eq_refl).
Defined.

End SystemContextFacts.

(** * Theorems about the racing combinator *)

Module WhenAnyFacts.
Import WhenAny.

(** Induction over operation states and tasks, through the lists of
    children. *)
Lemma op_induction (Q : op → Prop) :
  (∀ natural cooperative reached, Q (leaf_op natural cooperative reached)) →
  (∀ winner outstanding delivered kids,
      Forall Q kids → Q (any_op winner outstanding delivered kids)) →
  ∀ o, Q o.
Proof.
  intros Hleaf Hany.
  fix IH 1. intros [natural cooperative reached | w n d kids].
  - apply Hleaf.
  - apply Hany. induction kids as [|k kids IHkids]; constructor.
    + apply IH.
    + apply IHkids.
Qed.

Lemma task_induction (Q : task → Prop) :
  (∀ natural cooperative, Q (leaf natural cooperative)) →
  (∀ children, Forall Q children → Q (when_any children)) →
  ∀ t, Q t.
Proof.
  intros Hleaf Hany.
  fix IH 1. intros [natural cooperative | children].
  - apply Hleaf.
  - apply Hany. induction children as [|t ts IHts]; constructor.
    + apply IH.
    + apply IHts.
Qed.

(** ** The count-down and the children *)

Lemma pending_cons (k : op) (kids : list op) :
  pending (k :: kids)
  = ((if terminal k then 0 else 1) + pending kids)%nat.
Proof. unfold pending. cbn. destruct (terminal k); reflexivity. Qed.

Lemma pending_insert (kids : list op) :
  ∀ (i : nat) (kid kid' : op),
    kids !! i = Some kid →
    (pending (<[i := kid']> kids) + (if terminal kid then 0 else 1)
     = pending kids + (if terminal kid' then 0 else 1))%nat.
Proof.
  induction kids as [|k kids IH]; intros i kid kid' Hi.
  - discriminate Hi.
  - destruct i as [|i].
    + cbn in Hi. injection Hi as ->.
      change (<[O := kid']> (kid :: kids)) with (kid' :: kids).
      rewrite !pending_cons. lia.
    + cbn in Hi.
      change (<[S i := kid']> (k :: kids)) with (k :: <[i := kid']> kids).
      rewrite !pending_cons. specialize (IH i kid kid' Hi). lia.
Qed.

Lemma pending_zero_terminal (kids : list op) :
  pending kids = O → ∀ k, k ∈ kids → terminal k = true.
Proof.
  induction kids as [|k0 kids IH]; intros Hp k Hk.
  - inversion Hk.
  - rewrite pending_cons in Hp. apply elem_of_cons in Hk as [->|Hk].
    + destruct (terminal k0); [reflexivity | lia].
    + apply IH; [|exact Hk]. destruct (terminal k0); lia.
Qed.

Lemma pending_connect (children : list task) :
  Forall (λ t, emitted (connect t) = None) children →
  pending (List.map connect children) = length children.
Proof.
  induction 1 as [|t ts Ht _ IH]; [reflexivity|].
  cbn [List.map length]. rewrite pending_cons. unfold terminal.
  rewrite Ht, IH. reflexivity.
Qed.

(** ** Steps *)

(** An operation state that has completed takes no further step: at most
    one completion. *)
Lemma fire_terminal (path : list nat) :
  ∀ (stop : bool) (h : how) (o : op),
    consistent o → terminal o = true → fire stop path h o = None.
Proof.
  induction path as [|i path IH]; intros stop h o Hc Ht.
  - destruct o as [natural cooperative [c|] | w n d kids];
      [reflexivity | discriminate Ht | reflexivity].
  - destruct o as [natural cooperative reached | w n d kids]; [reflexivity|].
    cbn [fire]. destruct (kids !! i) as [kid|] eqn:Hi; [|reflexivity].
    inversion Hc as [|? ? ? ? Hkids Hn Hd Hw Hz]; subst.
    unfold terminal in Ht. cbn [emitted] in Ht.
    destruct d as [c|]; [|discriminate Ht].
    destruct (Hd c eq_refl) as [Hzero _].
    rewrite (IH _ h kid); [reflexivity | |].
    + rewrite Forall_forall in Hkids. apply Hkids.
      eapply list_elem_of_lookup_2. exact Hi.
    + apply (pending_zero_terminal kids Hzero).
      eapply list_elem_of_lookup_2. exact Hi.
Qed.

(** A step hands a completion to the parent exactly when it takes the
    operation state from in flight to terminal. *)
Lemma fire_emitted (path : list nat) (stop : bool) (h : how) (o o' : op)
  (e : option completion) :
  consistent o → fire stop path h o = Some (o', e) →
  emitted o = None ∧ emitted o' = e.
Proof.
  intros Hc Hf.
  assert (Hnt : emitted o = None).
  { destruct (emitted o) as [c|] eqn:He; [|reflexivity].
    rewrite (fire_terminal path stop h o Hc) in Hf; [discriminate Hf|].
    unfold terminal. rewrite He. reflexivity. }
  split; [exact Hnt|].
  destruct path as [|i path];
    destruct o as [natural cooperative reached | w n d kids];
    cbn [fire] in Hf; try discriminate Hf.
  - destruct reached; [discriminate Hf|].
    destruct (leaf_completion _ _ _ _); [|discriminate Hf].
    injection Hf as <- <-. reflexivity.
  - cbn [emitted] in Hnt. subst d.
    destruct (kids !! i) as [kid|]; [|discriminate Hf].
    destruct (fire _ path h kid) as [[kid' [c|]]|]; [| |discriminate Hf].
    + unfold notify in Hf. destruct (Nat.eqb n 1);
        injection Hf as <- <-; reflexivity.
    + injection Hf as <- <-. reflexivity.
Qed.

Lemma elem_of_insert_other (kids : list op) (i : nat) (kid kid' k : op) :
  kids !! i = Some kid → k ∈ kids → emitted kid = None →
  is_Some (emitted k) → k ∈ <[i := kid']> kids.
Proof.
  intros Hi Hk Hkid [c Hc].
  apply list_elem_of_lookup in Hk as [j Hj].
  apply list_elem_of_lookup. exists j.
  rewrite list_lookup_insert_ne; [exact Hj|].
  intros ->. rewrite Hi in Hj. injection Hj as ->. congruence.
Qed.

(** Steps keep the racing sets consistent. *)
Lemma fire_consistent (path : list nat) :
  ∀ (stop : bool) (h : how) (o o' : op) (e : option completion),
    consistent o → fire stop path h o = Some (o', e) → consistent o'.
Proof.
  induction path as [|i path IH]; intros stop h o o' e Hc Hf.
  - destruct o as [natural cooperative reached | w n d kids];
      cbn [fire] in Hf; [|discriminate Hf].
    destruct reached; [discriminate Hf|].
    destruct (leaf_completion _ _ _ _); [|discriminate Hf].
    injection Hf as <- _. constructor.
  - destruct (fire_emitted _ _ _ _ _ _ Hc Hf) as [Hnt _].
    destruct o as [natural cooperative reached | w n d kids];
      cbn [fire] in Hf; [discriminate Hf|].
    cbn [emitted] in Hnt. subst d.
    destruct (kids !! i) as [kid|] eqn:Hi; [|discriminate Hf].
    inversion Hc as [|? ? ? ? Hkids Hn Hd Hw Hz]; subst.
    assert (Hckid : consistent kid).
    { rewrite Forall_forall in Hkids. apply Hkids.
      eapply list_elem_of_lookup_2. exact Hi. }
    destruct (fire _ path h kid) as [[kid' ek]|] eqn:Hfk; [|discriminate Hf].
    pose proof (IH _ _ _ _ _ Hckid Hfk) as Hckid'.
    destruct (fire_emitted _ _ _ _ _ _ Hckid Hfk) as [Hkid Hkid'].
    pose proof (pending_insert kids i kid kid' Hi) as Hp.
    unfold terminal in Hp. rewrite Hkid, Hkid' in Hp.
    assert (Hi' : (i < length kids)%nat) by (eapply lookup_lt_Some; exact Hi).
    destruct ek as [c|].
    + (* the child completed: notify *)
      cbn [decided] in Hp.
      assert (Hin : kid' ∈ <[i := kid']> kids).
      { apply list_elem_of_lookup. exists i.
        apply list_lookup_insert_eq. exact Hi'. }
      unfold notify in Hf.
      assert (Hne : <[i := kid']> kids ≠ []).
      { intros Hnil. rewrite Hnil in Hin. inversion Hin. }
      assert (Hwin : ∀ c0,
                 match w with None => Some c | Some _ => w end = Some c0 →
                 ∃ k, k ∈ <[i := kid']> kids ∧ emitted k = Some c0).
      { intros c0 Hc0. destruct w as [cw|].
        - destruct (Hw cw eq_refl) as (k & Hk & Hek). exists k.
          injection Hc0 as <-. split; [|exact Hek].
          apply (elem_of_insert_other kids i kid kid' k); eauto.
        - injection Hc0 as <-. exists kid'. split; assumption. }
      destruct (Nat.eqb_spec (pending kids) 1) as [Hone|Hmore];
        injection Hf as <- _; constructor;
        try (apply Forall_insert; assumption); try exact Hwin; try lia.
      * intros c0 Hc0. split; [lia | exact Hc0].
      * intros _ _. destruct w as [cw|]; eexists; split; reflexivity.
      * intros c0 Hc0. discriminate Hc0.
    + (* the child is still in flight *)
      cbn [decided] in Hp. injection Hf as <- _. constructor.
      * apply Forall_insert; assumption.
      * lia.
      * intros c0 Hc0. discriminate Hc0.
      * intros c0 Hc0. destruct (Hw c0 Hc0) as (k & Hk & Hek). exists k.
        split; [|exact Hek].
        apply (elem_of_insert_other kids i kid kid' k); eauto.
      * intros Hzero _. exfalso.
        assert (Hk : kid ∈ kids)
          by (eapply list_elem_of_lookup_2; exact Hi).
        pose proof (pending_zero_terminal kids Hzero kid Hk) as Ht.
        unfold terminal in Ht. rewrite Hkid in Ht. discriminate Ht.
Qed.

Lemma terminal_pending_zero (kids : list op) :
  (∀ k, k ∈ kids → terminal k = true) → pending kids = O.
Proof.
  induction kids as [|k kids IH]; intros Hall; [reflexivity|].
  rewrite pending_cons, (Hall k) by (left).
  apply IH. intros k' Hk'. apply Hall. right. exact Hk'.
Qed.

(** Binding yields consistent racing sets, nothing completed. *)
Lemma connect_consistent (t : task) :
  consistent (connect t) ∧ emitted (connect t) = None.
Proof.
  induction t as [natural cooperative | children IH] using task_induction.
  - split; [constructor | reflexivity].
  - split; [|reflexivity]. cbn [connect]. constructor.
    + rewrite Forall_forall. intros k Hk.
      rewrite list_elem_of_In in Hk. apply List.in_map_iff in Hk as (t & <- & Ht).
      rewrite Forall_forall in IH. apply IH. apply list_elem_of_In. exact Ht.
    + symmetry. apply pending_connect.
      eapply Forall_impl; [exact IH|]. intros t [_ Ht]. exact Ht.
    + intros c Hc. discriminate Hc.
    + intros c Hc. discriminate Hc.
    + intros Hlen Hne. destruct children; [contradiction|discriminate Hlen].
Qed.

Lemma reachable_consistent (o o' : op) :
  consistent o → reachable o o' → consistent o'.
Proof.
  intros Hc Hr. induction Hr as [|o1 o2 o3 Hs _ IH]; [exact Hc|].
  apply IH. destruct Hs as (stop & path & h & e & Hf).
  exact (fire_consistent path stop h o1 o2 e Hc Hf).
Qed.

Lemma consistent_shutdown_ordered (o : op) :
  consistent o → shutdown_ordered o = true.
Proof.
  induction o as [natural cooperative reached | w n d kids IH]
    using op_induction; intros Hc; [reflexivity|].
  inversion Hc as [|? ? ? ? Hkids Hn Hd Hw Hz]; subst.
  cbn [shutdown_ordered]. apply andb_true_iff. split.
  - destruct d as [c|]; [|reflexivity]. cbn [decided implb].
    destruct (Hd c eq_refl) as [Hzero _].
    apply forallb_forall. intros k Hk.
    apply (pending_zero_terminal kids Hzero). apply list_elem_of_In. exact Hk.
  - apply forallb_forall. intros k Hk. apply list_elem_of_In in Hk.
    rewrite Forall_forall in IH, Hkids. apply IH; [exact Hk|].
    apply Hkids. exact Hk.
Qed.

Lemma consistent_quiescent (o : op) :
  consistent o → terminal o = true → quiescent o = true.
Proof.
  induction o as [natural cooperative reached | w n d kids IH]
    using op_induction; intros Hc Ht; [exact Ht|].
  inversion Hc as [|? ? ? ? Hkids Hn Hd Hw Hz]; subst.
  unfold terminal in Ht. cbn [emitted] in Ht.
  cbn [quiescent]. rewrite Ht. cbn [andb].
  destruct d as [c|]; [|discriminate Ht].
  destruct (Hd c eq_refl) as [Hzero _].
  apply forallb_forall. intros k Hk. apply list_elem_of_In in Hk.
  rewrite Forall_forall in IH, Hkids. apply IH; [exact Hk| |].
  - apply Hkids. exact Hk.
  - apply (pending_zero_terminal kids Hzero). exact Hk.
Qed.

(** C5. In every execution of a task, with any nesting of [when_any] and
    any interleaving of child completions and cancellation requests, every
    racing set that has delivered its completion to its parent has only
    terminal children; when the outermost operation state has completed, no
    operation state anywhere below it is in flight; and the step that
    hands a completion to the parent consumer leaves none in flight. *)
Theorem when_any_shutdown_ordering (t : task) (o : op) :
  reachable (connect t) o →
  shutdown_ordered o = true
  ∧ (terminal o = true → quiescent o = true)
  ∧ (∀ stop path h o' c,
        fire stop path h o = Some (o', Some c) → quiescent o' = true).
Proof.
  intros Hr.
  assert (Hc : consistent o).
  { eapply reachable_consistent; [|exact Hr]. apply connect_consistent. }
  split; [|split].
  - apply consistent_shutdown_ordered. exact Hc.
  - apply consistent_quiescent. exact Hc.
  - intros stop path h o' c Hf.
    apply consistent_quiescent.
    + exact (fire_consistent path stop h o o' _ Hc Hf).
    + destruct (fire_emitted _ _ _ _ _ _ Hc Hf) as [_ He].
      unfold terminal. rewrite He. reflexivity.
Qed.

(** C6. In every execution of [when_any] over at least one child, once all
    children have completed with [cancelled] the combinator has completed,
    and with [cancelled]: not with a value, not with an error. In
    particular [when_any] of two tasks that are already cancelled, and of
    one, completes with [cancelled]. *)
Theorem when_any_all_cancelled :
  (∀ (children : list task) (w : option completion) (n : nat)
     (d : option completion) (kids : list op),
      children ≠ [] →
      reachable (connect (when_any children)) (any_op w n d kids) →
      (∀ k, k ∈ kids → emitted k = Some cancelled) →
      d = Some cancelled)
  ∧ result (when_any [completes cancelled; completes cancelled])
    = Some cancelled
  ∧ result (when_any [completes cancelled]) = Some cancelled.
Proof.
  split; [|split; reflexivity].
  intros children w n d kids Hne Hr Hall.
  assert (Hc : consistent (any_op w n d kids)).
  { eapply reachable_consistent; [|exact Hr]. apply connect_consistent. }
  assert (Hkids : kids ≠ []).
  { clear Hall Hc. remember (connect (when_any children)) as o0 eqn:E0.
    remember (any_op w n d kids) as o1 eqn:E1.
    assert (Hgen : ∀ w0 n0 d0 ks0, o0 = any_op w0 n0 d0 ks0 → ks0 ≠ [] →
                   ∀ w1 n1 d1 ks1, o1 = any_op w1 n1 d1 ks1 → ks1 ≠ []).
    { clear E0 E1. induction Hr as [o|o1 o2 o3 Hs _ IH].
      - intros w0 n0 d0 ks0 -> Hk w1 n1 d1 ks1 E. injection E as <- <- <- <-.
        exact Hk.
      - intros w0 n0 d0 ks0 -> Hk. destruct Hs as (stop & path & h & e & Hf).
        destruct path as [|i path]; cbn [fire] in Hf; [discriminate Hf|].
        destruct (ks0 !! i) as [kid|] eqn:Hi; [|discriminate Hf].
        assert (Hins : ∀ kid', <[i := kid']> ks0 ≠ []).
        { intros kid' Hnil. apply (f_equal length) in Hnil.
          rewrite length_insert in Hnil. destruct ks0; [contradiction|].
          discriminate Hnil. }
        destruct (fire _ path h kid) as [[kid' [c|]]|]; [| |discriminate Hf].
        + unfold notify in Hf. destruct (Nat.eqb n0 1);
            injection Hf as <- _; eapply IH; eauto.
        + injection Hf as <- _. eapply IH; eauto. }
    subst o0. cbn [connect] in Hgen.
    eapply Hgen; [reflexivity | | exact E1].
    destruct children; [contradiction | discriminate]. }
  inversion Hc as [|? ? ? ? _ Hn Hd Hw Hz]; subst.
  destruct Hz as (c & Hwc & Hdc); [|exact Hkids|].
  - apply terminal_pending_zero. intros k Hk. unfold terminal.
    rewrite (Hall k Hk). reflexivity.
  - destruct (Hw c Hwc) as (k & Hk & Hek).
    rewrite (Hall k Hk) in Hek. injection Hek as <-. exact Hdc.
Qed.

(** ** Racing a task that never completes against one that does *)

Section OneSender.
Variable v : list Z.

Lemma race_state_step (o o' : op) :
  race_state v o → step false o o' → race_state v o'.
Proof.
  intros Hs (path & h & e & Hf).
  destruct Hs; destruct path as [|[|[|i]] [|j path]]; destruct h;
    cbn in Hf; try discriminate Hf; injection Hf as <- _; constructor.
Qed.

Lemma race_state_reachable (o o' : op) :
  race_state v o → rtc (step false) o o' → race_state v o'.
Proof.
  intros Hs Hr. induction Hr as [|o1 o2 o3 Hstep _ IH]; [exact Hs|].
  apply IH. exact (race_state_step o1 o2 Hs Hstep).
Qed.

Lemma race_state_result (o : op) (c : completion) :
  race_state v o → emitted o = Some c → c = value v.
Proof. intros Hs He. destruct Hs; cbn in He; congruence. Qed.

End OneSender.

(** C4. [when_any(A, B)] where A never completes on its own (it answers a
    cancellation request, as [completes_if{false}] does) and B completes
    with the values [v], 42 in the test: the overall result is the value
    completion [v]; so it is when A completes with [v] and B never does;
    and in no interleaving of the children, absent a cancellation request
    from outside, is any other result delivered. *)
Theorem when_any_completes_with_only_one_sender (v : list Z) :
  result (when_any [never; completes (value v)]) = Some (value v)
  ∧ result (when_any [completes (value v); never]) = Some (value v)
  ∧ result (when_any [never; completes (value [42])]) = Some (value [42])
  ∧ (∀ o c,
        rtc (step false) (connect (when_any [never; completes (value v)])) o →
        emitted o = Some c → c = value v)
  ∧ (∀ o c,
        rtc (step false) (connect (when_any [completes (value v); never])) o →
        emitted o = Some c → c = value v).
Proof.
  split; [reflexivity|]. split; [reflexivity|]. split; [reflexivity|].
  split; intros o c Hr He;
    apply (race_state_result v o c); try exact He;
    eapply race_state_reachable; try exact Hr; constructor.
Qed.

(** A child that neither completes on its own nor answers the cancellation
    request keeps the combinator waiting: nothing is delivered. *)
Lemma when_any_waits_for_uncooperative_child (v : list Z) :
  result (when_any [leaf None false; completes (value v)]) = None.
Proof. reflexivity. Qed.

(** ** Concrete executions *)

Lemma when_any_completes_with_only_one_sender_witness :
  let final := any_op (Some (value [42])) 0 (Some (value [42]))
                      [leaf_op None true (Some cancelled);
                       leaf_op (Some (value [42])) false (Some (value [42]))] in
  rtc (step false) (connect (when_any [never; completes (value [42])])) final
  ∧ emitted final = Some (value [42])
  ∧ value [42] = value [42].
Proof.
  intros final.
  assert (Hr : rtc (step false)
                   (connect (when_any [never; completes (value [42])])) final).
  { eapply rtc_l; [exists [1%nat], naturally; eexists; reflexivity|].
    eapply rtc_l; [exists [0%nat], on_request; eexists; reflexivity|].
    apply rtc_refl. }
  split; [exact Hr|]. split; [reflexivity|].
  exact (proj1 (proj2 (proj2 (proj2
           (when_any_completes_with_only_one_sender [42]))))
           final (value [42]) Hr eq_refl).
Defined.

(** The nested race of the tests, after [just()] has won and the inner
    [when_any] has been cancelled and has completed. *)
Lemma when_any_shutdown_ordering_witness :
  let t := when_any [when_any [never; never]; never;
                     completes (value []); never] in
  let o := any_op (Some (value [])) 1 None
                  [any_op (Some cancelled) 0 (Some cancelled)
                          [leaf_op None true (Some cancelled);
                           leaf_op None true (Some cancelled)];
                   leaf_op None true (Some cancelled);
                   leaf_op (Some (value [])) false (Some (value []));
                   leaf_op None true None] in
  reachable (connect t) o
  ∧ shutdown_ordered o = true
  ∧ (terminal o = true → quiescent o = true)
  ∧ (∀ stop path h o' c,
        fire stop path h o = Some (o', Some c) → quiescent o' = true).
Proof.
  intros t o.
  assert (Hr : reachable (connect t) o).
  { eapply rtc_l;
      [exists false, [2%nat], naturally; eexists; reflexivity|].
    eapply rtc_l;
      [exists false, [0%nat; 0%nat], on_request; eexists; reflexivity|].
    eapply rtc_l;
      [exists false, [0%nat; 1%nat], on_request; eexists; reflexivity|].
    eapply rtc_l;
      [exists false, [1%nat], on_request; eexists; reflexivity|].
    apply rtc_refl. }
  split; [exact Hr|].
  exact (when_any_shutdown_ordering t o Hr).
Defined.

Lemma when_any_all_cancelled_witness :
  let kids := [leaf_op (Some cancelled) false (Some cancelled);
               leaf_op (Some cancelled) false (Some cancelled)] in
  reachable (connect (when_any [completes cancelled; completes cancelled]))
            (any_op (Some cancelled) 0 (Some cancelled) kids)
  ∧ Some cancelled = Some cancelled.
Proof.
  intros kids.
  assert (Hr : reachable
                 (connect (when_any [completes cancelled; completes cancelled]))
                 (any_op (Some cancelled) 0 (Some cancelled) kids)).
  { eapply rtc_l;
      [exists false, [0%nat], naturally; eexists; reflexivity|].
    eapply rtc_l;
      [exists false, [1%nat], naturally; eexists; reflexivity|].
    apply rtc_refl. }
  split; [exact Hr|].
  refine (proj1 when_any_all_cancelled
                [completes cancelled; completes cancelled]
                (Some cancelled) 0%nat (Some cancelled) kids _ Hr _).
  - discriminate.
  - intros k Hk. subst kids.
    apply elem_of_cons in Hk as [->|Hk]; [reflexivity|].
    apply elem_of_cons in Hk as [->|Hk]; [reflexivity|].
    inversion Hk.
Defined.

End WhenAnyFacts.

(** * Further properties of the system context *)

Module SystemContextExtras.
Import SystemContext SystemContextFacts.

(** ** Schedulers, environments, forward progress *)

(** X1. The forward progress guarantee of a scheduler is [concurrent]
    exactly when the engine answers 0, [weakly_parallel] exactly when it
    answers 2, and [parallel] for every other answer: 1 and every answer
    the switch does not know. *)
Theorem forward_progress_guarantee_of_answer
  (entry : Z → Z) (self : system_scheduler) :
  let answer := entry (__scheduler_ self) in
  (get_forward_progress_guarantee entry self = concurrent ↔ answer = 0)
  ∧ (get_forward_progress_guarantee entry self = weakly_parallel ↔ answer = 2)
  ∧ (get_forward_progress_guarantee entry self = parallel
     ↔ answer ≠ 0 ∧ answer ≠ 2).
Proof.
  intros answer. unfold get_forward_progress_guarantee. fold answer.
  destruct (Z.eqb_spec answer 0) as [H0|H0];
    [|destruct (Z.eqb_spec answer 1) as [H1|H1];
      [|destruct (Z.eqb_spec answer 2) as [H2|H2]]];
    repeat split; intros; try discriminate; try lia; try reflexivity.
Qed.

(** X2. The environment of a sender names the scheduler the sender was made
    from, for [set_value] and for [set_stopped]: for [schedule(sched)] it
    compares equal to [sched]; for [bulk(sched, previous, ...)] it compares
    equal to [sched] whatever the input sender, and to the scheduler of a
    schedule input sender only when the two wrap the same pointer. *)
Theorem completion_scheduler_of_sender_env :
  (∀ sched : system_scheduler,
      system_scheduler_eq
        (get_completion_scheduler_set_value
           (system_sender_get_env (schedule sched))) sched = true
      ∧ system_scheduler_eq
          (get_completion_scheduler_set_stopped
             (system_sender_get_env (schedule sched))) sched = true)
  ∧ (∀ (Fn P : Type) (sched : system_scheduler)
       (previous : @previous_sender P) (size : Z) (f : Fn),
        system_scheduler_eq
          (get_completion_scheduler_set_value
             (system_bulk_sender_get_env (bulk sched previous size f)))
          sched = true
        ∧ system_scheduler_eq
            (get_completion_scheduler_set_stopped
               (system_bulk_sender_get_env (bulk sched previous size f)))
            sched = true)
  ∧ (∀ (Fn P : Type) (sched inner : system_scheduler) (size : Z) (f : Fn),
        system_scheduler_eq
          (get_completion_scheduler_set_value
             (system_bulk_sender_get_env
                (@bulk Fn P sched (previous_system (schedule inner)) size f)))
          inner = true
        ↔ __scheduler_ sched = __scheduler_ inner).
Proof.
  split; [|split].
  - intros sched. split; apply system_scheduler_eq_iff; reflexivity.
  - intros Fn P sched previous size f.
    split; apply system_scheduler_eq_iff; reflexivity.
  - intros Fn P sched inner size f.
    exact (system_scheduler_eq_iff
             (mk_system_scheduler (__scheduler_ sched)) inner).
Qed.

(** X3. [operator==] is an equivalence on scheduler handles, and handles
    that compare equal are interchangeable: they give the same schedule
    sender, the same bulk sender and the same forward progress guarantee. *)
Theorem system_scheduler_eq_equivalence :
  (∀ a, system_scheduler_eq a a = true)
  ∧ (∀ a b, system_scheduler_eq a b = system_scheduler_eq b a)
  ∧ (∀ a b c, system_scheduler_eq a b = true →
              system_scheduler_eq b c = true →
              system_scheduler_eq a c = true)
  ∧ (∀ a b, system_scheduler_eq a b = true →
            schedule a = schedule b
            ∧ (∀ (Fn P : Type) (previous : @previous_sender P) size (f : Fn),
                  bulk a previous size f = bulk b previous size f)
            ∧ (∀ entry, get_forward_progress_guarantee entry a
                        = get_forward_progress_guarantee entry b)).
Proof.
  split; [|split; [|split]].
  - intros a. apply system_scheduler_eq_iff. reflexivity.
  - intros a b. unfold system_scheduler_eq. apply Z.eqb_sym.
  - intros a b c Hab Hbc. apply system_scheduler_eq_iff.
    apply system_scheduler_eq_iff in Hab, Hbc. congruence.
  - intros a b Hab. apply system_scheduler_eq_iff in Hab.
    unfold schedule, bulk, get_forward_progress_guarantee. rewrite Hab.
    repeat split.
Qed.

Lemma system_scheduler_eq_equivalence_witness :
  system_scheduler_eq (mk_system_scheduler 1000) (mk_system_scheduler 1000)
  = true
  ∧ schedule (mk_system_scheduler 1000) = schedule (mk_system_scheduler 1000).
Proof.
  split; [reflexivity|].
  exact (proj1 (proj2 (proj2 (proj2 system_scheduler_eq_equivalence))
                      (mk_system_scheduler 1000) (mk_system_scheduler 1000)
                      eq_refl)).
Defined.

(** ** Operations in the store *)

Section Store.
Context {R Fn P : Type} `{!FunctionObject Fn}.
Local Abbreviation receiver := (@receiver R).
Local Abbreviation world := (@world R Fn P).
Variable off : Z.

Ltac binds := unfold mbind, M_bind, bind.

(** Decoding onto a user receiver always returns, touches nothing but the
    trace, and records at most one call. *)
Lemma pass_to_receiver_user (ct p : Z) (r : R) (w : world) :
  ∃ es, @__pass_to_receiver R Fn P ct p (user_receiver r) w
        = Some (tt, record_events es w)
        ∧ (es = [] ∨ ∃ c, es = [ev_receiver r c]).
Proof.
  assert (Hnil : record_events [] w = w).
  { unfold record_events. rewrite app_nil_r. destruct w; reflexivity. }
  unfold __pass_to_receiver.
  destruct (ct =? 0); [|destruct (ct =? 1); [|destruct (ct =? 2)]].
  - exists [ev_receiver r (set_value_c [])]. split; [reflexivity|]. eauto.
  - exists [ev_receiver r set_stopped_c]. split; [reflexivity|]. eauto.
  - exists [ev_receiver r (set_error_c (mk_exception_ptr p))].
    split; [reflexivity|]. eauto.
  - exists []. split; [|left; reflexivity]. unfold ret. rewrite Hnil.
    reflexivity.
Qed.

(** X4. A schedule sender connected to a user receiver and started makes one
    [__schedule] call; when the engine then calls the callback it was
    handed, on the context it was handed, with the encoding of a
    completion, the receiver gets exactly that completion and nothing else
    changes; with a discriminant outside 0, 1, 2 the receiver gets
    nothing. *)
Theorem schedule_operation_completes_receiver
  (s : system_sender) (r : R) (this : Z) (w : world) :
  let started :=
    record_event (ev_schedule (ss_scheduler_ s) op_cb_ptr this)
      (mk_world (<[this := mk_op (user_receiver r) (ss_scheduler_ s)]> (ops w))
                (bulk_states w) (blocks w) (next_block w) (trace w)) in
  (connect_system_sender s (user_receiver r) this;; __op_start this) w
  = Some (tt, started)
  ∧ (∀ c, invoke_callback op_cb_ptr this (encode c).1 (encode c).2 started
          = Some (tt, record_event (ev_receiver r (channel_of c)) started))
  ∧ (∀ ct p, ct ≠ 0 → ct ≠ 1 → ct ≠ 2 →
             invoke_callback op_cb_ptr this ct p started = Some (tt, started)).
Proof.
  intros started.
  assert (Hop : ops started !! this
                = Some (mk_op (user_receiver r) (ss_scheduler_ s)))
    by apply lookup_insert_eq.
  split; [|split].
  - binds. rewrite connect_system_sender_spec.
    rewrite (op_start_spec this (mk_op (user_receiver r) (ss_scheduler_ s)));
      [reflexivity | apply lookup_insert_eq].
  - intros c. cbn [invoke_callback].
    rewrite (op_cb_unfold _ _ _ _ _ Hop), pass_to_receiver_encode.
    destruct c; reflexivity.
  - intros ct p H0 H1 H2. cbn [invoke_callback].
    rewrite (op_cb_unfold _ _ _ _ _ Hop).
    rewrite pass_to_receiver_other by assumption. reflexivity.
Qed.

(** X5. The callback context selects the operation state: of two schedule
    operations connected at different addresses each callback completes its
    own receiver and each start submits to its own scheduler; connecting
    the second at the address of the first replaces it. *)
Theorem callback_context_selects_operation
  (s1 s2 : system_sender) (r1 r2 : receiver) (a1 a2 : Z)
  (c : boundary_completion) (w : world) :
  ∃ w2,
    (connect_system_sender s1 r1 a1;; connect_system_sender s2 r2 a2) w
    = Some (tt, w2)
    ∧ trace w2 = trace w
    ∧ __op_cb a2 (encode c).1 (encode c).2 w2 = complete r2 (channel_of c) w2
    ∧ __op_start a2 w2
      = Some (tt, record_event (ev_schedule (ss_scheduler_ s2) op_cb_ptr a2) w2)
    ∧ (a1 ≠ a2 →
       __op_cb a1 (encode c).1 (encode c).2 w2 = complete r1 (channel_of c) w2
       ∧ __op_start a1 w2
         = Some (tt, record_event
                       (ev_schedule (ss_scheduler_ s1) op_cb_ptr a1) w2))
    ∧ (a1 = a2 →
       __op_cb a1 (encode c).1 (encode c).2 w2 = complete r2 (channel_of c) w2).
Proof.
  eexists. split; [reflexivity|]. split; [reflexivity|].
  set (w2 := mk_world _ _ _ _ _).
  assert (H2 : ops w2 !! a2 = Some (mk_op r2 (ss_scheduler_ s2)))
    by apply lookup_insert_eq.
  split; [|split; [|split]].
  - rewrite (op_cb_unfold _ _ _ _ _ H2), pass_to_receiver_encode. reflexivity.
  - apply (op_start_spec a2 _ w2 H2).
  - intros Hne.
    assert (H1 : ops w2 !! a1 = Some (mk_op r1 (ss_scheduler_ s1))).
    { subst w2. cbn [ops]. rewrite lookup_insert_ne by congruence.
      apply lookup_insert_eq. }
    split.
    + rewrite (op_cb_unfold _ _ _ _ _ H1), pass_to_receiver_encode.
      reflexivity.
    + apply (op_start_spec a1 _ w2 H1).
  - intros ->.
    rewrite (op_cb_unfold _ _ _ _ _ H2), pass_to_receiver_encode. reflexivity.
Qed.

(** X6. After a bulk sender is connected, whatever its input sender, a value
    completion of the input with the values [vs] makes exactly one call:
    [__bulk_schedule] on the scheduler of the bulk sender, with the bulk
    callback, the item function, the address of the bulk state and the size
    of the sender; and [vs] is kept in a new block, not null, that the bulk
    state points to. *)
Theorem bulk_value_submits_bulk_work
  (snd : system_bulk_sender) (r : R) (this : Z) (vs : values) (w : world) :
  ∃ w1 w2 p,
    connect_system_bulk_sender off snd r this w = Some (tt, w1)
    ∧ set_value (bulk_receiver (mk_intermediate this)) vs w1 = Some (tt, w2)
    ∧ trace w2
      = trace w1 ++ [ev_bulk_schedule (sbs_scheduler_ snd) bulk_cb_ptr
                                      __type_erased_fn_ptr this (sbs_size_ snd)]
    ∧ p ≠ nullptr
    ∧ bulk_states w2 !! this = Some (mk_bulk_state snd r p)
    ∧ blocks w2 !! p = Some vs.
Proof.
  destruct (connect_bulk_spec off snd r this w) as (w1 & Hc & Hst & _).
  exists w1. eexists. exists (Z.pos (next_block w1)).
  split; [exact Hc|]. split.
  - cbn [set_value].
    exact (bulk_set_value_spec (mk_intermediate this) _ vs w1 Hst).
  - cbn [trace record_event bulk_states blocks __state_ bst_snd_ bst_recv_].
    split; [reflexivity|]. split; [discriminate|].
    split; apply lookup_insert_eq.
Qed.

(** X7. A bulk sender over a schedule sender, connected and started: one
    [__schedule] call on the scheduler of the input sender, its context the
    inner operation state. When the engine answers that callback with
    value, the bulk work is submitted to the scheduler of the bulk sender
    with an empty argument tuple; with cancelled or error the receiver of
    the bulk operation is completed at once; with any other discriminant
    nothing happens: no bulk work and no completion. *)
Theorem bulk_over_schedule_chain
  (sched : Z) (s : system_sender) (size : Z) (f : Fn) (r : R) (this : Z)
  (w : world) :
  let snd := mk_system_bulk_sender sched (previous_system s) size f in
  let inner := this + off in
  ∃ w1,
    (connect_system_bulk_sender off snd r this;; __bulk_op_start off this) w
    = Some (tt, w1)
    ∧ trace w1 = trace w ++ [ev_schedule (ss_scheduler_ s) op_cb_ptr inner]
    ∧ (∀ p, ∃ w2 q,
          invoke_callback op_cb_ptr inner 0 p w1 = Some (tt, w2)
          ∧ trace w2
            = trace w1 ++ [ev_bulk_schedule sched bulk_cb_ptr
                                            __type_erased_fn_ptr this size]
          ∧ bulk_states w2 !! this = Some (mk_bulk_state snd r q)
          ∧ blocks w2 !! q = Some [])
    ∧ (∀ p, invoke_callback op_cb_ptr inner 1 p w1
            = Some (tt, record_event (ev_receiver r set_stopped_c) w1))
    ∧ (∀ p, invoke_callback op_cb_ptr inner 2 p w1
            = Some (tt, record_event
                          (ev_receiver r (set_error_c (mk_exception_ptr p)))
                          w1))
    ∧ (∀ ct p, ct ≠ 0 → ct ≠ 1 → ct ≠ 2 →
               invoke_callback op_cb_ptr inner ct p w1 = Some (tt, w1)).
Proof.
  intros snd inner.
  set (self := mk_intermediate this).
  set (o := @mk_op R (bulk_receiver self) (ss_scheduler_ s)).
  set (w0 := mk_world (<[inner := o]> (ops w))
                      (<[this := mk_bulk_state snd r nullptr]> (bulk_states w))
                      (blocks w) (next_block w) (trace w)).
  exists (record_event (ev_schedule (ss_scheduler_ s) op_cb_ptr inner) w0).
  set (w1 := record_event _ w0).
  assert (Hop : ops w1 !! inner = Some o) by apply lookup_insert_eq.
  assert (Hst : bulk_states w1 !! __state_ self
                = Some (mk_bulk_state snd r nullptr))
    by apply lookup_insert_eq.
  split; [|split; [reflexivity|split; [|split; [|split]]]].
  - subst w1 w0 o self inner snd.
    unfold connect_system_bulk_sender, __bulk_op_start, __op_start,
      connect_system_sender. binds.
    unfold store_state, store_op, load_state, load_op, emit.
    cbn [ops bulk_states blocks next_block trace sbs_previous_ bst_snd_].
    rewrite lookup_insert_eq.
    cbn [ops bulk_states blocks next_block trace sbs_previous_ bst_snd_].
    rewrite lookup_insert_eq. reflexivity.
  - intros p. cbn [invoke_callback].
    rewrite (op_cb_unfold _ _ _ _ _ Hop), pass_to_receiver_value.
    cbn [op_recv_ o set_value].
    rewrite (bulk_set_value_spec self _ [] w1 Hst).
    eexists. exists (Z.pos (next_block w1)). split; [reflexivity|].
    cbn [trace record_event bulk_states blocks __state_ self bst_snd_
         bst_recv_ sbs_scheduler_ sbs_size_ snd].
    split; [reflexivity|]. split; apply lookup_insert_eq.
  - intros p. cbn [invoke_callback].
    rewrite (op_cb_unfold _ _ _ _ _ Hop), pass_to_receiver_stopped.
    exact (bulk_set_stopped_spec self _ w1 Hst eq_refl).
  - intros p. cbn [invoke_callback].
    rewrite (op_cb_unfold _ _ _ _ _ Hop), pass_to_receiver_error.
    exact (bulk_set_error_spec self _ _ w1 Hst eq_refl).
  - intros ct p H0 H1 H2. cbn [invoke_callback].
    rewrite (op_cb_unfold _ _ _ _ _ Hop).
    rewrite pass_to_receiver_other by assumption. reflexivity.
Qed.

(** ** The argument block of a bulk operation *)

Lemma bulk_cb_spec (data : Z) (st : __bulk_state) (vs : values)
  (ct p : Z) (w : world) :
  bulk_states w !! data = Some st →
  bst_arguments_data_ st ≠ nullptr →
  blocks w !! bst_arguments_data_ st = Some vs →
  __bulk_cb data ct p w
  = __pass_to_receiver ct p (user_receiver (bst_recv_ st))
                       (release_block (bst_arguments_data_ st) w).
Proof.
  intros Hst Hnn Hblk. unfold __bulk_cb. binds. unfold load_state.
  rewrite Hst. unfold delete_array.
  destruct (Z.eqb_spec (bst_arguments_data_ st) nullptr) as [|_];
    [contradiction|].
  rewrite Hblk. reflexivity.
Qed.


(** The store after the input has completed with [vs] and the engine has
    called the bulk callback, with any discriminant. *)
Lemma bulk_value_then_cb (self : __bulk_intermediate_receiver)
  (st : __bulk_state) (vs : values) (ct p : Z) (w : world) :
  bulk_states w !! __state_ self = Some st →
  let q := Z.pos (next_block w) in
  ∃ w2,
    (bulk_set_value self vs;; __bulk_cb (__state_ self) ct p) w = Some (tt, w2)
    ∧ bulk_states w2 !! __state_ self
      = Some (mk_bulk_state (bst_snd_ st) (bst_recv_ st) q)
    ∧ blocks w2 = delete q (<[q := vs]> (blocks w)).
Proof.
  intros Hst q. binds.
  rewrite (bulk_set_value_spec self st vs w Hst). fold q.
  set (st' := mk_bulk_state (bst_snd_ st) (bst_recv_ st) q).
  set (w1 := record_event _ _).
  assert (Hst1 : bulk_states w1 !! __state_ self = Some st')
    by apply lookup_insert_eq.
  assert (Hblk1 : blocks w1 !! bst_arguments_data_ st' = Some vs)
    by apply lookup_insert_eq.
  rewrite (bulk_cb_spec (__state_ self) st' vs ct p w1 Hst1
             ltac:(discriminate) Hblk1).
  destruct (pass_to_receiver_user ct p (bst_recv_ st')
              (release_block (bst_arguments_data_ st') w1))
    as (es & -> & _).
  eexists. split; [reflexivity|]. split; [exact Hst1 | reflexivity].
Qed.

(** X9. The char array of the arguments is released on the value path: when
    the allocator's next block is free, the array that the intermediate
    [set_value] allocates is released by the bulk callback, whatever
    discriminant the engine reports, and the live char arrays are those
    from before. This is about the array only: the header runs no
    destructor for the tuple constructed in it. *)
Theorem bulk_arguments_released
  (self : __bulk_intermediate_receiver) (st : __bulk_state) (vs : values)
  (ct p : Z) (w : world) :
  bulk_states w !! __state_ self = Some st →
  blocks w !! Z.pos (next_block w) = None →
  ∃ w2,
    (bulk_set_value self vs;; __bulk_cb (__state_ self) ct p) w = Some (tt, w2)
    ∧ blocks w2 = blocks w.
Proof.
  intros Hst Hfresh.
  destruct (bulk_value_then_cb self st vs ct p w Hst) as (w2 & Hrun & _ & Hblk).
  exists w2. split; [exact Hrun|].
  rewrite Hblk. apply delete_insert_id. exact Hfresh.
Qed.

(** X10. The bulk callback does not reset [__arguments_data_]: once it has
    run, the bulk state still points to the released block, so a second
    call of the callback, a call of the item function, and a late
    [set_stopped] or [set_error] of the input are all undefined (a second
    [delete[]], a read of a released block). *)
Theorem bulk_state_dangles_after_callback
  (self : __bulk_intermediate_receiver) (st : __bulk_state) (vs : values)
  (ct p : Z) (w : world) :
  bulk_states w !! __state_ self = Some st →
  let completed := bulk_set_value self vs;; __bulk_cb (__state_ self) ct p in
  (∀ ct' p', (completed;; __bulk_cb (__state_ self) ct' p') w = None)
  ∧ (∀ idx, (completed;; __type_erased_fn (__state_ self) idx) w = None)
  ∧ (completed;; bulk_set_stopped self) w = None
  ∧ (∀ e, (completed;; bulk_set_error self e) w = None).
Proof.
  intros Hst completed.
  destruct (bulk_value_then_cb self st vs ct p w Hst)
    as (w2 & Hrun & Hst2 & Hblk).
  assert (Hgone : blocks w2 !! Z.pos (next_block w) = None)
    by (rewrite Hblk; apply lookup_delete_eq).
  subst completed.
  repeat split; intros; unfold mbind at 1, M_bind at 1, bind at 1;
    rewrite Hrun;
    unfold __bulk_cb, __type_erased_fn, bulk_set_stopped, bulk_set_error;
    binds; unfold load_state, load_block, delete_array;
    rewrite Hst2; cbn [bst_arguments_data_];
    try change (Z.pos (next_block w) =? nullptr) with false; cbn iota;
    rewrite Hgone; reflexivity.
Qed.



End Store.

(** ** Concrete runs *)

Lemma valued_world_set_value :
  set_value (bulk_receiver (mk_intermediate 4096)) [7] connected_world
  = Some (tt, valued_world).
Proof. reflexivity. Qed.

Lemma schedule_operation_completes_receiver_witness :
  let started :=
    record_event (ev_schedule 1000 op_cb_ptr 16)
      (mk_world {[ 16 := mk_op (user_receiver 9%nat) 1000 ]} ∅ ∅ 1%positive [])
    : @world nat nat unit in
  invoke_callback op_cb_ptr 16 3 0 started = Some (tt, started).
Proof.
  refine (proj2 (proj2 (schedule_operation_completes_receiver
                          (mk_system_sender 1000) 9%nat 16 empty_world))
                3 0 _ _ _); lia.
Defined.

Lemma callback_context_selects_operation_witness :
  16 ≠ 32
  ∧ ∃ w2 : @world nat nat unit,
      (connect_system_sender (mk_system_sender 1000) (user_receiver 8%nat) 16;;
       connect_system_sender (mk_system_sender 2000) (user_receiver 9%nat) 32)
        empty_world = Some (tt, w2)
      ∧ __op_cb 16 1 0 w2 = set_stopped (user_receiver 8%nat) w2.
Proof.
  split; [lia|].
  destruct (callback_context_selects_operation
              (mk_system_sender 1000) (mk_system_sender 2000)
              (user_receiver 8%nat) (user_receiver 9%nat) 16 32
              bc_cancelled empty_world)
    as (w2 & Hc & _ & _ & _ & Hne & _).
  exists w2. split; [exact Hc|].
  exact (proj1 (Hne ltac:(lia))).
Defined.

Lemma bulk_over_schedule_chain_witness :
  ∃ w1 : @world nat nat unit,
    (connect_system_bulk_sender 64 bulk_over_schedule 9%nat 4096;;
     __bulk_op_start 64 4096) empty_world = Some (tt, w1)
    ∧ invoke_callback op_cb_ptr 4160 3 0 w1 = Some (tt, w1).
Proof.
  destruct (bulk_over_schedule_chain
              64 1000 (mk_system_sender 1000) 3 5%nat 9%nat 4096 empty_world)
    as (w1 & Hc & _ & _ & _ & _ & Hother).
  exists w1. split; [exact Hc|].
  apply Hother; lia.
Defined.


Lemma bulk_arguments_released_witness :
  blocks connected_world !! Z.pos (next_block connected_world) = None
  ∧ ∃ w2 : @world nat nat unit,
      (bulk_set_value (mk_intermediate 4096) [7];; __bulk_cb 4096 0 0)
        connected_world = Some (tt, w2)
      ∧ blocks w2 = blocks connected_world.
Proof.
  split; [reflexivity|].
  exact (bulk_arguments_released
           (mk_intermediate 4096)
           (mk_bulk_state bulk_over_schedule 9%nat nullptr) [7] 0 0
           connected_world eq_refl eq_refl).
Defined.

Lemma bulk_state_dangles_after_callback_witness :
  ((bulk_set_value (mk_intermediate 4096) [7];; __bulk_cb 4096 0 0);;
   __bulk_cb 4096 0 0) connected_world = None.
Proof.
  exact (proj1 (bulk_state_dangles_after_callback
                  (mk_intermediate 4096)
                  (mk_bulk_state bulk_over_schedule 9%nat nullptr) [7] 0 0
                  connected_world eq_refl) 0 0).
Defined.



End SystemContextExtras.
